(** * render_engine.c: a shallow embedding and its checked properties

    The embedding follows [src/render_engine.c] function by function.

    Numbers.  [uint8_t] and [uint16_t] values are integers of [Z] with the
    wrap-around of the width written out ([u8], [u16]).  [rounding_t] (its
    typedef lives in the absent header) is a floating type in the program;
    here it is the field [Q] of exact rationals: comparisons, [+], [-], [*]
    are exact, there is no NaN and no infinity, and every division by a
    value that is not a literal goes through [fdiv], which reports a zero
    divisor instead of producing one.  What rounding does to the program
    (a loop variable too large to be decremented, a sum that loses its
    low bits) is outside the embedding.  The special values are taken in
    at one place: [slopeDivisors] lists the divisors of the slopes over
    [fval], the rationals with the two infinities and NaN.
    The libm functions the renderer calls and that have no rational value
    ([cos], [sin], [tan], [atan2], [sqrt]) are the fields of a record
    [libm]; every general statement about the renderer holds for every such
    record, and the runs on concrete worlds use [coarseLibm].
    [fmod], [floor] and [fabs] are exact on [Q] and written out.

    Effects.  The UART is the list of bytes handed to [hal_UART_TxByte], in
    order.  The frame buffer is a record passed in and returned.  The
    rasteriser never reads a cell, so its loops are embedded as the ordered
    list of [paintPixelf] calls they make, and [paintAll] replays that list
    on the buffer. *)

From Stdlib Require Import ZArith QArith Qround Qabs Lia Lqa List Bool.
From Stdlib Require Import Ascii String DecimalString Permutation Sorted.
From stdpp Require Import base list.
Import ListNotations.

Open Scope Z_scope.

(** ** Machine integers *)

Definition u8 (z : Z) : Z := z mod 256.
Definition u16 (z : Z) : Z := z mod 65536.

(** A character constant of the C source, as the byte it denotes. *)
Definition chr (a : ascii) : Z := Z.of_nat (nat_of_ascii a).

(** ['\e'], ['\r'] and ['\n'] have no printable spelling. *)
Definition ESC : Z := 27.
Definition CR : Z := 13.
Definition LF : Z := 10.

(** ** UART helper functions (render_engine.c, lines 434-481)

    Each function returns the bytes it transmits.  [writeTerminalBlock]
    waits for [hal_UART_SpaceAvailable] and then sends its byte, and
    [Render_Engine_DisplayFrame] first waits for [UART_IsTransmitting] to
    clear; both waits are on hardware outside the file and are taken to
    end.  The channel number selects the UART and does not enter what is
    sent, so it is left out. *)

Definition writeTerminalBlock (data : Z) : list Z := [u8 data].

Definition writeTerminalNumber (number : Z) : list Z :=
  let atDigits := false in
  (* Look for hundreds *)
  let hundreds := u8 ((number / 100) mod 10) in
  let '(atDigits, out1) :=
    if 0 <? hundreds
    then (true, writeTerminalBlock (hundreds + chr "0"))
    else (atDigits, []) in
  (* Look for tens *)
  let tens := u8 ((number / 10) mod 10) in
  let '(atDigits, out2) :=
    if (0 <? tens) || atDigits
    then (true, writeTerminalBlock (tens + chr "0"))
    else (atDigits, []) in
  (* Look for ones *)
  let ones := u8 (number mod 10) in
  let out3 :=
    if (0 <? ones) || atDigits
    then writeTerminalBlock (ones + chr "0")
    else [] in
  out1 ++ out2 ++ out3.

Definition changeTerminalCursorLocation (x y : Z) : list Z :=
  writeTerminalBlock ESC ++
  writeTerminalBlock (chr "[") ++
  writeTerminalNumber (u8 (y + 1)) ++
  writeTerminalBlock (chr ";") ++
  writeTerminalNumber (u8 (x + 1)) ++
  writeTerminalBlock (chr "H").

Definition changeTerminalColor (color : Z) : list Z :=
  writeTerminalBlock ESC ++
  writeTerminalBlock (chr "[") ++
  writeTerminalNumber color ++
  writeTerminalBlock (chr "m").

(** ** The frame buffer *)

Record framebuffer_t := mkFrame {
  width : Z;          (* uint8_t *)
  height : Z;         (* uint8_t *)
  buffer : list Z     (* uint8_t colour indices, row-major *)
}.

(** [frame->buffer[i]]: a read past the end of the list is outside what C
    defines; the embedding reads 0 there. *)
Definition cell (frame : framebuffer_t) (i : Z) : Z :=
  nth (Z.to_nat i) (buffer frame) 0.

(** ** Render_Engine_DisplayFrame (lines 330-358)

    [displayCells] is the [for] loop: [n] iterations are left, [i] is the
    loop counter and [lastColor] the colour last selected. *)

Fixpoint displayCells (frame : framebuffer_t) (n : nat) (i lastColor : Z)
  : list Z :=
  match n with
  | O => []
  | S n' =>
    (* Move to the next row to force where the pixels are displayed *)
    let row :=
      if (0 <? i) && (i mod width frame =? 0)
      then writeTerminalBlock CR ++ writeTerminalBlock LF
      else [] in
    (* Increase speed by only changing the selected color when needed *)
    let '(lastColor', change) :=
      if negb (lastColor =? cell frame i)
      then (cell frame i, changeTerminalColor (cell frame i))
      else (lastColor, []) in
    row ++ change ++ writeTerminalBlock (chr " ") ++
    displayCells frame n' (u16 (i + 1)) lastColor'
  end.

Definition Render_Engine_DisplayFrame (frame : framebuffer_t) : list Z :=
  changeTerminalCursorLocation 0 0 ++
  displayCells frame (Z.to_nat (width frame * height frame)) 0 0.

(** ** rounding_t as exact rationals *)

Definition Qltb (x y : Q) : bool := negb (Qle_bool y x).

Infix "==?" := Qeq_bool (at level 70, no associativity) : Q_scope.
Infix "<=?" := Qle_bool (at level 70, no associativity) : Q_scope.
Infix "<?" := Qltb (at level 70, no associativity) : Q_scope.
Notation "x >? y" := (Qltb y x)
  (at level 70, no associativity, only parsing) : Q_scope.
Notation "x >=? y" := (Qle_bool y x)
  (at level 70, no associativity, only parsing) : Q_scope.

(** [#define M_PI 3.14159265358979323846] *)
Definition M_PI : Q := 314159265358979323846 # 100000000000000000000.

(** What stops a run of the embedding where the program's floating-point
    run would leave the rationals or where a loop would outlive its bound. *)
Inductive fault : Type :=
| DivisionByZero
| LoopBound
| Unassigned.

Inductive result (A : Type) : Type :=
| Ok (a : A)
| Fault (f : fault).

Arguments Ok {A} a.
Arguments Fault {A} f.

Definition bind {A B : Type} (r : result A) (k : A -> result B) : result B :=
  match r with
  | Ok a => k a
  | Fault f => Fault f
  end.

Notation "'do' x <- r ; k" := (bind r (fun x => k))
  (at level 10, x name, r at level 100, k at level 200,
   format "'[v' 'do'  x  <-  r ; '/' k ']'").

(** The [/] of the program on a divisor that is not a literal. *)
Definition fdiv (a b : Q) : result Q :=
  if (b ==? 0)%Q then Fault DivisionByZero else Ok (a / b)%Q.

(** Discarding the fractional part, as a conversion to an integer type and
    [fmod] do. *)
Definition Qtrunc (q : Q) : Z := Z.quot (Qnum q) (Zpos (Qden q)).

(** libm's [floor] and [fmod] (C99 7.12.9.2, 7.12.10.1), exact on [Q]:
    [fmod x y] is [x - n*y] for the integer [n] that is [x/y] with its
    fractional part discarded. *)
Definition floor (x : Q) : Q := inject_Z (Qfloor x).
Definition fmod (x y : Q) : Q := (x - inject_Z (Qtrunc (x / y)) * y)%Q.
Definition fabs (x : Q) : Q := Qabs x.

(** The libm functions without a rational value. *)
Record libm := mkLibm {
  cos : Q -> Q;
  sin : Q -> Q;
  tan : Q -> Q;
  atan2 : Q -> Q -> Q;
  sqrt : Q -> Q
}.

(** [(uint16_t) x] for a [rounding_t] [x >= 0]: the fractional part is
    discarded and the value is reduced to 16 bits. *)
Definition to_uint16 (x : Q) : Z := u16 (Qtrunc x).

(** ** The data model (render_engine.h is absent: the fields are those the
    source reads) *)

Record vector_t := mkVector { vec_x : Q; vec_y : Q; vec_z : Q }.

Record point_t := mkPoint { pt_x : Q; pt_y : Q }.

Record triangle_t := mkTriangle {
  tri_p1 : vector_t;
  tri_p2 : vector_t;
  tri_p3 : vector_t;
  tri_color : Z
}.

Record camera_t := mkCamera {
  location : vector_t;
  rotation : vector_t;     (* degrees: [vec_z] is the yaw, [vec_y] the pitch *)
  fovHorizontal : Q;
  fovVertical : Q
}.

(** [numTriangles] is the length of [triangles]. *)
Record world_t := mkWorld {
  backgroundColor : Z;
  triangles : list triangle_t
}.

(** ** Painting (lines 422-432) *)

Definition paintPixel (frame : framebuffer_t) (x y color : Z)
  : framebuffer_t :=
  if (x <? width frame) && (y <? height frame)
  then mkFrame (width frame) (height frame)
         (<[Z.to_nat (x + y * width frame) := color]> (buffer frame))
  else frame.

Definition paintPixelf (frame : framebuffer_t) (x y : Q) (color : Z)
  : framebuffer_t :=
  if (x >=? 0)%Q && (y >=? 0)%Q
  then paintPixel frame (to_uint16 x) (to_uint16 y) color
  else frame.

(** One call [paintPixelf(frame, x, y, color)]. *)
Record paint_t := mkPaint { paint_x : Q; paint_y : Q; paint_color : Z }.

Definition paintAll (frame : framebuffer_t) (calls : list paint_t)
  : framebuffer_t :=
  fold_left
    (fun f c => paintPixelf f (paint_x c) (paint_y c) (paint_color c))
    calls frame.

(** ** Rendering helper functions (lines 360-420) *)

Definition dotProduct (a b : vector_t) : Q :=
  (vec_x a * vec_x b + vec_y a * vec_y b + vec_z a * vec_z b)%Q.

Definition pointToScreen (M : libm) (delta : vector_t)
    (camHAngle camVAngle angleHPixel angleVPixel : Q)
    (halfWidth halfHeight : Z) : result point_t :=
  (* Horizontal position onscreen *)
  let angleHorizontal :=
    if (vec_x delta ==? 0)%Q && (vec_y delta ==? 0)%Q
    then 0%Q
    else (atan2 M (vec_y delta) (vec_x delta) - camHAngle)%Q in
  let angleHorizontal :=
    if (angleHorizontal <=? - M_PI)%Q
    then (angleHorizontal + 2 * M_PI)%Q
    else if (angleHorizontal >? M_PI)%Q
         then (angleHorizontal - 2 * M_PI)%Q
         else angleHorizontal in
  do qx <- fdiv angleHorizontal angleHPixel;
  let screen_x := (inject_Z halfWidth - qx)%Q in
  (* Vertical position onscreen *)
  let angleVertical :=
    if (vec_x delta ==? 0)%Q && (vec_y delta ==? 0)%Q
       && (vec_z delta ==? 0)%Q
    then 0%Q
    else (atan2 M (vec_z delta)
            (sqrt M (vec_x delta * vec_x delta + vec_y delta * vec_y delta))
          - camVAngle)%Q in
  do qy <- fdiv angleVertical angleVPixel;
  let screen_y := (inject_Z halfHeight - qy)%Q in
  Ok (mkPoint screen_x screen_y).

(** The centroid and its squared distance to the camera, as
    [compareTriangles] computes them for each of its two arguments. *)
Definition triCenter (t : triangle_t) : vector_t :=
  mkVector
    ((vec_x (tri_p1 t) + vec_x (tri_p2 t) + vec_x (tri_p3 t)) / 3)%Q
    ((vec_y (tri_p1 t) + vec_y (tri_p2 t) + vec_y (tri_p3 t)) / 3)%Q
    ((vec_z (tri_p1 t) + vec_z (tri_p2 t) + vec_z (tri_p3 t)) / 3)%Q.

Definition dist (cam : vector_t) (t : triangle_t) : Q :=
  let c := triCenter t in
  ((vec_x c - vec_x cam) * (vec_x c - vec_x cam)
   + (vec_y c - vec_y cam) * (vec_y c - vec_y cam)
   + (vec_z c - vec_z cam) * (vec_z c - vec_z cam))%Q.

(** [compareCamera.location] is the static the caller fills in before
    [qsort]; here it is the first argument. *)
Definition compareTriangles (compareCamera : vector_t) (a b : triangle_t)
  : Z :=
  let distA := dist compareCamera a in
  let distB := dist compareCamera b in
  if (distA ==? distB)%Q then 0
  else if (distA <? distB)%Q then 1
  else -1.

(** ** The loops of the rasteriser

    [forLoop fuel cond body x] is [for (...; cond(x); x = next) { ... }]
    started at [x]: [body x] gives the [paintPixelf] calls of one iteration
    and the value of the loop variable after the increment expression.  A
    loop that is still running when [fuel] is used up is a [LoopBound]
    fault; [loopBound] is the fuel each loop of the renderer gets. *)

Fixpoint forLoop (fuel : nat) (cond : Q -> bool)
    (body : Q -> result (list paint_t * Q)) (x : Q) : result (list paint_t) :=
  if cond x then
    match fuel with
    | O => Fault LoopBound
    | S fuel' =>
      do r <- body x;
      do rest <- forLoop fuel' cond body (snd r);
      Ok (fst r ++ rest)
    end
  else Ok [].

Definition loopBound (a b : Q) : nat :=
  S (Z.to_nat (Qceiling (2 * Qabs (a - b)))).

(** [for (y = topY; y > bottomY; y--) paintPixelf(frame, x, y, color);] *)
Definition paintDown (x topY bottomY : Q) (color : Z)
  : result (list paint_t) :=
  forLoop (loopBound topY bottomY)
    (fun y => y >? bottomY)%Q
    (fun y => Ok ([mkPaint x y color], y - 1)%Q)
    topY.

(** The column loop followed by "Catch one more paint". *)
Definition paintColumn (x topY bottomY : Q) (color : Z)
  : result (list paint_t) :=
  do col <- paintDown x topY bottomY color;
  Ok (col ++ [mkPaint x bottomY color]).

(** "Correct sampling to the middle of the pixel" *)
Definition snap (x : Q) : Q :=
  if negb (x - floor x ==? 1 # 2)%Q then (floor x + (1 # 2))%Q else x.

(** ** Render_Engine_RenderFrame, the body of the triangle loop *)

(** Lines 106-116: "Determine the left point of the triangle". *)
Definition selectLeft (p1 p2 p3 : point_t) : point_t * Z :=
  let s := (p1, 1) in
  let s := if (pt_x (fst s) >? pt_x p2)%Q then (p2, 2) else s in
  let s := if (pt_x (fst s) >? pt_x p3)%Q then (p3, 3) else s in
  s.

(** Lines 118-128: "Determine the right point of the triangle". *)
Definition selectRight (leftSel : Z) (p1 p2 p3 : point_t) : point_t * Z :=
  let s := (p3, 3) in
  let s :=
    if ((pt_x (fst s) <? pt_x p2)%Q || (leftSel =? 3)) && negb (leftSel =? 2)
    then (p2, 2) else s in
  let s :=
    if (pt_x (fst s) <? pt_x p1)%Q && negb (leftSel =? 1)
    then (p1, 1) else s in
  s.

(** Lines 130-137: "Determine the center point of the triangle".  With
    another sum no branch assigns [center]. *)
Definition selectCenter (leftSel rightSel : Z) (p1 p2 p3 : point_t)
  : result point_t :=
  if leftSel + rightSel =? 3 then Ok p3
  else if leftSel + rightSel =? 4 then Ok p2
  else if leftSel + rightSel =? 5 then Ok p1
  else Fault Unassigned.

(** Lines 140-165: "One vertical line". *)
Definition paintLine (frame_width color : Z) (p1 p2 p3 center : point_t)
  : result (list paint_t) :=
  if (pt_x center <? 0)%Q || (pt_x center >=? inject_Z frame_width)%Q
  then Ok []      (* Skip rendering if this will not actually be displayed *)
  else
    let max := pt_y p1 in
    let max := if (max <? pt_y p2)%Q then pt_y p2 else max in
    let max := if (max <? pt_y p3)%Q then pt_y p3 else max in
    let min := pt_y p1 in
    let min := if (min >? pt_y p2)%Q then pt_y p2 else min in
    let min := if (min >? pt_y p3)%Q then pt_y p3 else min in
    paintDown (pt_x center) max min color.

(** Lines 201-216 and 226-241: one column of the sweep towards [side],
    with the value of [x] after the sampling correction. *)
Definition edgeColumn (color : Z) (upperSlope lowerSlope : Q)
    (side : point_t) (x : Q) : result (list paint_t * Q) :=
  (* Calculate the min and max y values *)
  let topY := (upperSlope * (x - pt_x side) + pt_y side)%Q in
  let bottomY := (lowerSlope * (x - pt_x side) + pt_y side)%Q in
  do col <- paintColumn x topY bottomY color;
  Ok (col, snap x).

(** Lines 192-248, once [top], [bottom], [side] and [leftDirection] are
    chosen. *)
Definition edgeSweep (color : Z) (top bottom side : point_t)
    (leftDirection : bool) : result (list paint_t) :=
  (* Calculate the slope of the lines *)
  do upperSlope <- fdiv (pt_y top - pt_y side) (pt_x top - pt_x side);
  do lowerSlope <- fdiv (pt_y bottom - pt_y side) (pt_x bottom - pt_x side);
  if leftDirection
  then
    do cols <- forLoop (loopBound (pt_x top) (pt_x side))
                 (fun x => x >? pt_x side)%Q
                 (fun x =>
                    do r <- edgeColumn color upperSlope lowerSlope side x;
                    Ok (fst r, snd r - 1)%Q)
                 (pt_x top);
    (* Paint one more pixel over if the side is just over the edge *)
    Ok (cols ++
        if (pt_x side - fabs (pt_x side) >? 1 # 2)%Q
        then [mkPaint (pt_x side) (pt_y side) color] else [])
  else
    do cols <- forLoop (loopBound (pt_x top) (pt_x side))
                 (fun x => x <? pt_x side)%Q
                 (fun x =>
                    do r <- edgeColumn color upperSlope lowerSlope side x;
                    Ok (fst r, snd r + 1)%Q)
                 (pt_x top);
    (* Paint one more pixel over if the side is just over the edge *)
    Ok (cols ++
        if (pt_x side - floor (pt_x side) <? 1 # 2)%Q
        then [mkPaint (pt_x side) (pt_y side) color] else []).

(** Lines 166-248: "Two points are in line vertically". *)
Definition paintVerticalEdge (color : Z) (left center right : point_t)
  : result (list paint_t) :=
  if (pt_x left ==? pt_x center)%Q
  then
    if (pt_y left >? pt_y center)%Q
    then edgeSweep color left center right false
    else edgeSweep color center left right false
  else
    if (pt_y right >? pt_y center)%Q
    then edgeSweep color right center left true
    else edgeSweep color center right left true.

(** One iteration of the two sweeps of lines 258-317: [slopeA] and [slopeB]
    are taken from the point [origin]; a column off the screen is skipped by
    [continue], which goes to [x++] without the sampling correction. *)
Definition sweepColumn (frame_width color : Z) (slopeA slopeB : Q)
    (origin : point_t) (x : Q) : result (list paint_t * Q) :=
  (* Make sure rendering is only done if the point is visible *)
  if (x <? 0)%Q || (x >=? inject_Z frame_width)%Q
  then Ok ([], x + 1)%Q
  else
    (* Calculate the min and max y values *)
    let topY := (slopeA * (x - pt_x origin) + pt_y origin)%Q in
    let bottomY := (slopeB * (x - pt_x origin) + pt_y origin)%Q in
    let flip := (topY <? bottomY)%Q in
    let topY' := if flip then bottomY else topY in
    let bottomY' := if flip then topY else bottomY in
    do col <- paintColumn x topY' bottomY' color;
    Ok (col, snap x + 1)%Q.

(** Lines 249-326: "Points are not directly in line vertically". *)
Definition paintGeneral (frame_width color : Z) (left center right : point_t)
  : result (list paint_t) :=
  do slopeLeftCenter <-
    fdiv (pt_y center - pt_y left) (pt_x center - pt_x left);
  do slopeLeftRight <-
    fdiv (pt_y right - pt_y left) (pt_x right - pt_x left);
  do slopeCenterRight <-
    fdiv (pt_y right - pt_y center) (pt_x right - pt_x center);
  (* Left to center *)
  do leftCols <-
    forLoop (loopBound (pt_x left) (pt_x center))
      (fun x => x <? pt_x center)%Q
      (sweepColumn frame_width color slopeLeftCenter slopeLeftRight left)
      (pt_x left);
  (* Center to right *)
  do rightCols <-
    forLoop (loopBound (pt_x center) (pt_x right))
      (fun x => x <? pt_x right)%Q
      (sweepColumn frame_width color slopeCenterRight slopeLeftRight right)
      (pt_x center);
  (* Paint one more pixel over if the right is just over the edge *)
  Ok (leftCols ++ rightCols ++
      if (pt_x right - floor (pt_x right) <? 1 # 2)%Q
         && ((pt_x right >=? 0)%Q
             && (pt_x right <? inject_Z frame_width)%Q)
      then [mkPaint (pt_x right) (pt_y right) color] else []).

(** Lines 139-326: "Determine the number of triangles to paint". *)
Definition paintShape (frame_width color : Z)
    (p1 p2 p3 left center right : point_t) : result (list paint_t) :=
  if (pt_x left ==? pt_x center)%Q && (pt_x center ==? pt_x right)%Q
  then paintLine frame_width color p1 p2 p3 center
  else if (pt_x left ==? pt_x center)%Q || (pt_x center ==? pt_x right)%Q
  then paintVerticalEdge color left center right
  else paintGeneral frame_width color left center right.

(** Lines 106-326: the projected triangle [p1 p2 p3] is classified and
    painted. *)
Definition paintTriangle (frame_width color : Z) (p1 p2 p3 : point_t)
  : result (list paint_t) :=
  let l := selectLeft p1 p2 p3 in
  let r := selectRight (snd l) p1 p2 p3 in
  do center <- selectCenter (snd l) (snd r) p1 p2 p3;
  paintShape frame_width color p1 p2 p3 (fst l) center (fst r).

(** ** Render_Engine_RenderFrame (lines 27-328) *)

(** Lines 35-42: the yaw in degrees, before the conversion of line 43. *)
Definition normalizedYaw (camera : camera_t) : Q :=
  let cameraHorizontalAngle := vec_z (rotation camera) in
  let cameraHorizontalAngle :=
    if (vec_z (rotation camera) <? 0)%Q
    then (- cameraHorizontalAngle)%Q else cameraHorizontalAngle in
  let cameraHorizontalAngle :=
    (fmod (cameraHorizontalAngle + 180) 360 - 180)%Q in
  if (vec_z (rotation camera) <? 0)%Q
  then (- cameraHorizontalAngle)%Q else cameraHorizontalAngle.

Definition cameraHorizontalAngle (camera : camera_t) : Q :=
  (normalizedYaw camera * (M_PI / 180))%Q.

Definition cameraVerticalAngle (camera : camera_t) : Q :=
  (vec_y (rotation camera) * M_PI / 180)%Q.

(** The [int] value of [(v > 0) - (v < 0)]. *)
Definition signTest (v : Q) : Z :=
  (if (v >? 0)%Q then 1 else 0) - (if (v <? 0)%Q then 1 else 0).

(** Lines 45-47. *)
Definition cameraDirection (M : libm) (camera : camera_t) : vector_t :=
  mkVector
    (cos M (cameraHorizontalAngle camera))
    (sin M (cameraHorizontalAngle camera))
    (if (cameraVerticalAngle camera <=? - (90))%Q
        || (cameraVerticalAngle camera >=? 90)%Q
     then tan M (cameraVerticalAngle camera)
     else inject_Z (signTest (cameraVerticalAngle camera) * 10000)).

(** Lines 51-53: "Set the framebuffer to the background color". *)
Fixpoint clearCells (n : nat) (i color : Z) (buf : list Z) : list Z :=
  match n with
  | O => buf
  | S n' => clearCells n' (u16 (i + 1)) color (<[Z.to_nat i := color]> buf)
  end.

Definition delta (p cam : vector_t) : vector_t :=
  mkVector (vec_x p - vec_x cam)%Q (vec_y p - vec_y cam)%Q
           (vec_z p - vec_z cam)%Q.

(** Lines 86-88: "Make sure at least one point is in front of the camera";
    [true] is the [continue] of line 89. *)
Definition behindCamera (camDir d1 d2 d3 : vector_t) : bool :=
  (dotProduct d1 camDir <=? 0)%Q
  && (dotProduct d2 camDir <=? 0)%Q
  && (dotProduct d3 camDir <=? 0)%Q.

(** Lines 74-326: one iteration of "Go through all triangles". *)
Definition renderTriangle (M : libm) (camera : camera_t) (frame_width : Z)
    (anglePerPixelHorizontal anglePerPixelVertical : Q)
    (halfWidth halfHeight : Z) (t : triangle_t) : result (list paint_t) :=
  (* Calculate the difference between point location and camera *)
  let p1Delta := delta (tri_p1 t) (location camera) in
  let p2Delta := delta (tri_p2 t) (location camera) in
  let p3Delta := delta (tri_p3 t) (location camera) in
  if behindCamera (cameraDirection M camera) p1Delta p2Delta p3Delta
  then Ok []
  else
    (* Calculate the screen coordinates *)
    let project d :=
      pointToScreen M d
        (cameraHorizontalAngle camera) (cameraVerticalAngle camera)
        anglePerPixelHorizontal anglePerPixelVertical
        halfWidth halfHeight in
    do p1 <- project p1Delta;
    do p2 <- project p2Delta;
    do p3 <- project p3Delta;
    paintTriangle frame_width (tri_color t) p1 p2 p3.

Fixpoint renderTriangles (step : triangle_t -> result (list paint_t))
    (ts : list triangle_t) : result (list paint_t) :=
  match ts with
  | [] => Ok []
  | t :: ts' =>
    do calls <- step t;
    do rest <- renderTriangles step ts';
    Ok (calls ++ rest)
  end.

(** [qsort] is the C library's; [Render_Engine_RenderFrame] is given the
    sorting function it is linked with. *)
Definition Render_Engine_RenderFrame (M : libm)
    (qsort : (triangle_t -> triangle_t -> Z) ->
             list triangle_t -> list triangle_t)
    (world : world_t) (camera : camera_t) (frame : framebuffer_t)
  : result framebuffer_t :=
  let bufLength := u16 (width frame * height frame) in
  let halfWidth := u8 (width frame / 2) in
  let halfHeight := u8 (height frame / 2) in
  do anglePerPixelHorizontal <-
    fdiv (fovHorizontal camera * M_PI) (inject_Z (width frame) * 180);
  do anglePerPixelVertical <-
    fdiv (fovVertical camera * M_PI) (inject_Z (height frame) * 180);
  (* Set the framebuffer to the background color *)
  let cleared :=
    mkFrame (width frame) (height frame)
      (clearCells (Z.to_nat bufLength) 0 (backgroundColor world)
         (buffer frame)) in
  (* Sort triangles by distance to the camera *)
  let sorted := qsort (compareTriangles (location camera)) (triangles world) in
  (* Go through all triangles *)
  do calls <-
    renderTriangles
      (renderTriangle M camera (width frame)
         anglePerPixelHorizontal anglePerPixelVertical halfWidth halfHeight)
      sorted;
  Ok (paintAll cleared calls).

(** ** Reference definitions the statements compare the code with *)

(** The decimal numeral of [n] as bytes, by the Standard Library's printer
    (it prints ["0"] for zero and no leading zero otherwise). *)
Definition decimalDigits (n : Z) : list Z :=
  map chr (list_ascii_of_string (NilZero.string_of_uint (N.to_uint (Z.to_N n)))).

(** [n] cells from index [i] with nothing but the blocks and the row
    separators: what a display with no colour change sends. *)
Fixpoint blankCells (w : Z) (n : nat) (i : Z) : list Z :=
  match n with
  | O => []
  | S n' =>
    (if (0 <? i) && (i mod w =? 0) then [CR; LF] else [])
    ++ [chr " "] ++ blankCells w n' (i + 1)
  end.

Definition blankByte (b : Z) : Prop := b = chr " " \/ b = CR \/ b = LF.

(** The remainder of the mathematical division of [x] by [m], in [[0, m)]
    for a positive [m]. *)
Definition Qmod (x m : Q) : Q := (x - m * inject_Z (Qfloor (x / m)))%Q.

(** "take the absolute value, compute ((|yaw| + 180) mod 360) - 180, then
    reapply the original sign if yaw < 0" *)
Definition signedWrap (yaw : Q) : Q :=
  let w := (Qmod (Qabs yaw + 180) 360 - 180)%Q in
  if Qlt_le_dec yaw 0 then (- w)%Q else w.

(** What the C standard asks of a comparison function handed to [qsort]
    (7.20.5: the same objects always compare the same way, and the results
    define a total order), and what [qsort] promises in return (7.20.5.2:
    the array is a rearrangement in ascending order of the comparison). *)
Definition comparator_consistent {A : Type} (cmp : A -> A -> Z) : Prop :=
  (forall a b, Z.sgn (cmp a b) = - Z.sgn (cmp b a)) /\
  (forall a b c, cmp a b <= 0 -> cmp b c <= 0 -> cmp a c <= 0).

Definition qsort_contract {A : Type}
    (qsort : (A -> A -> Z) -> list A -> list A) : Prop :=
  forall cmp l,
    comparator_consistent cmp ->
    Permutation l (qsort cmp l) /\
    StronglySorted (fun a b => cmp a b <= 0) (qsort cmp l).

(** One sorting function that meets the contract: insertion sort. *)
Fixpoint insertSorted {A : Type} (cmp : A -> A -> Z) (a : A) (l : list A)
  : list A :=
  match l with
  | [] => [a]
  | b :: l' => if cmp a b <=? 0 then a :: l else b :: insertSorted cmp a l'
  end.

Fixpoint insertionSort {A : Type} (cmp : A -> A -> Z) (l : list A) : list A :=
  match l with
  | [] => []
  | a :: l' => insertSorted cmp a (insertionSort cmp l')
  end.

(** A libm of rational stand-ins, to run the renderer on concrete inputs;
    no general statement about the renderer depends on it.  [atan2] has libm's
    values (in terms of [M_PI]) on the axes and the diagonals, [cos], [sin]
    and [tan] are exact at 0, [sqrt] is exact at 0 and 1 and positive on
    positive arguments. *)
Definition coarse_atan2 (y x : Q) : Q :=
  if (y ==? 0)%Q then (if (x <? 0)%Q then M_PI else 0%Q)
  else if (x ==? 0)%Q
       then (if (y >? 0)%Q then M_PI / 2 else - (M_PI / 2))%Q
  else if (x ==? y)%Q
       then (if (x >? 0)%Q then M_PI / 4 else - (3 * M_PI / 4))%Q
  else if (x ==? - y)%Q
       then (if (x >? 0)%Q then - (M_PI / 4) else 3 * M_PI / 4)%Q
  else (y / x)%Q.

Definition coarseLibm : libm :=
  mkLibm
    (fun x => 1 - x * x / 2)%Q
    (fun x => x - x * x * x / 6)%Q
    (fun x => x + x * x * x / 3)%Q
    coarse_atan2
    (fun x => if (x ==? 0)%Q then 0 else (x + 1) / 2)%Q.

(** ** Inputs the statements are evaluated at *)

Definition origin : vector_t := mkVector 0 0 0.

(** A camera at the origin looking along +x: yaw 0, pitch 0. *)
Definition levelCamera : camera_t := mkCamera origin (mkVector 0 0 0) 90 60.

(** The same camera pitched up by 45 degrees. *)
Definition pitchedCamera : camera_t :=
  mkCamera origin (mkVector 0 45 0) 90 60.

(** The same camera turned by half a turn: yaw 180. *)
Definition turnedCamera : camera_t :=
  mkCamera origin (mkVector 0 0 180) 90 60.

Definition blackFrame (w h : Z) : framebuffer_t :=
  mkFrame w h (repeat 0 (Z.to_nat (w * h))).

(** Three triangles at squared centroid distances 1, 9 and 4 from the
    origin. *)
Definition flatTriangle (x : Q) (c : Z) : triangle_t :=
  mkTriangle (mkVector x 0 0) (mkVector x 1 0) (mkVector x (-1) 0) c.

Definition threeTriangles : list triangle_t :=
  [flatTriangle 1 1; flatTriangle 3 2; flatTriangle 2 3].

(** A camera at the origin looking along +x, pitched up by one degree,
    with a vertical field of view of 1/16384 degree. *)
Definition narrowCamera : camera_t :=
  mkCamera origin (mkVector 0 1 0) 90 (1 # 16384).

(** A triangle in the horizontal plane of the camera, ahead of it. *)
Definition groundTriangle (c : Z) : triangle_t :=
  mkTriangle (mkVector 1 0 0) (mkVector 1 1 0) (mkVector 1 (-1) 0) c.

(** A triangle shrunk to the point (1, 0, 0), straight ahead of
    [levelCamera]. *)
Definition pointTriangle (c : Z) : triangle_t :=
  mkTriangle (mkVector 1 0 0) (mkVector 1 0 0) (mkVector 1 0 0) c.

(** ** Definitions for the further properties *)

(** The bytes that are a block or part of a row separator. *)
Definition isBlankByte (b : Z) : bool :=
  (b =? chr " ") || (b =? CR) || (b =? LF).

(** The colour of the pixel in column [x] of row [y], read where
    [paintPixel] writes it. *)
Definition pixel (frame : framebuffer_t) (x y : Z) : option Z :=
  buffer frame !! Z.to_nat (x + y * width frame).

(** The test of lines 86-88 on a triangle of the world. *)
Definition triangleBehind (M : libm) (camera : camera_t) (t : triangle_t)
  : bool :=
  behindCamera (cameraDirection M camera)
    (delta (tri_p1 t) (location camera))
    (delta (tri_p2 t) (location camera))
    (delta (tri_p3 t) (location camera)).

(** A frame of one colour. *)
Definition plainFrame (w h c : Z) : framebuffer_t :=
  mkFrame w h (repeat c (Z.to_nat (w * h))).

(** A call in one of the columns from [lo] to [hi], in the colour [color]. *)
Definition withinColumns (lo hi : Q) (color : Z) (c : paint_t) : Prop :=
  (lo <= paint_x c <= hi)%Q /\ paint_color c = color.

(** A colour the world can show: its background or one of its triangles'. *)
Definition worldColour (world : world_t) (c : Z) : Prop :=
  c = backgroundColor world
  \/ exists t, In t (triangles world) /\ c = tri_color t.

(** ** The slope divisors with the special values of a floating type

    [Q] has no NaN and no infinity.  For the divisions of lines 193-194 and
    251-253 the x and y of a projected point are taken once more as
    [fval]: a rational, an infinity or NaN, with the comparisons and the
    subtraction IEEE 754 gives them (every comparison with NaN is false,
    NaN and the difference of two equal infinities are NaN).
    [slopeDivisors] follows lines 106-137, the tests of lines 140, 166 and
    170-190, and lists the divisors of the branch taken. *)

Inductive fval : Type :=
| NInf
| Fin (q : Q)
| PInf
| NaN.

Definition fltb (a b : fval) : bool :=
  match a, b with
  | NaN, _ | _, NaN => false
  | NInf, NInf => false
  | NInf, _ => true
  | Fin _, NInf => false
  | Fin x, Fin y => (x <? y)%Q
  | Fin _, PInf => true
  | PInf, _ => false
  end.

Definition feqb (a b : fval) : bool :=
  match a, b with
  | NInf, NInf => true
  | Fin x, Fin y => (x ==? y)%Q
  | PInf, PInf => true
  | _, _ => false
  end.

Definition fsub (a b : fval) : fval :=
  match a, b with
  | NaN, _ | _, NaN => NaN
  | Fin x, Fin y => Fin (x - y)
  | Fin _, PInf => NInf
  | Fin _, NInf => PInf
  | PInf, PInf => NaN
  | PInf, _ => PInf
  | NInf, NInf => NaN
  | NInf, _ => NInf
  end.

Definition isNaN (a : fval) : bool :=
  match a with NaN => true | _ => false end.

(** A divisor that makes the division a division by zero. *)
Definition isZero (a : fval) : bool :=
  match a with Fin q => (q ==? 0)%Q | _ => false end.

Record fpoint := mkFPoint { fpt_x : fval; fpt_y : fval }.

(** A point of rational coordinates as an [fpoint]. *)
Definition finite (p : point_t) : fpoint :=
  mkFPoint (Fin (pt_x p)) (Fin (pt_y p)).

(** Lines 106-116. *)
Definition selectLeftF (p1 p2 p3 : fpoint) : fpoint * Z :=
  let s := (p1, 1) in
  let s := if fltb (fpt_x p2) (fpt_x (fst s)) then (p2, 2) else s in
  let s := if fltb (fpt_x p3) (fpt_x (fst s)) then (p3, 3) else s in
  s.

(** Lines 118-128. *)
Definition selectRightF (leftSel : Z) (p1 p2 p3 : fpoint) : fpoint * Z :=
  let s := (p3, 3) in
  let s :=
    if (fltb (fpt_x (fst s)) (fpt_x p2) || (leftSel =? 3))
       && negb (leftSel =? 2)
    then (p2, 2) else s in
  let s :=
    if fltb (fpt_x (fst s)) (fpt_x p1) && negb (leftSel =? 1)
    then (p1, 1) else s in
  s.

(** Lines 130-137. *)
Definition selectCenterF (leftSel rightSel : Z) (p1 p2 p3 : fpoint)
  : result fpoint :=
  if leftSel + rightSel =? 3 then Ok p3
  else if leftSel + rightSel =? 4 then Ok p2
  else if leftSel + rightSel =? 5 then Ok p1
  else Fault Unassigned.

(** The divisors of the slopes the triangle loop computes for the three
    projected points: none for the vertical line (lines 140-165), those of
    lines 193-194 for two points in line vertically, those of lines
    251-253 otherwise. *)
Definition slopeDivisors (p1 p2 p3 : fpoint) : result (list fval) :=
  let l := selectLeftF p1 p2 p3 in
  let r := selectRightF (snd l) p1 p2 p3 in
  do center <- selectCenterF (snd l) (snd r) p1 p2 p3;
  let left := fst l in
  let right := fst r in
  if feqb (fpt_x left) (fpt_x center) && feqb (fpt_x center) (fpt_x right)
  then Ok []
  else if feqb (fpt_x left) (fpt_x center)
          || feqb (fpt_x center) (fpt_x right)
  then
    let sel :=
      if feqb (fpt_x left) (fpt_x center)
      then
        if fltb (fpt_y center) (fpt_y left)
        then (left, center, right)
        else (center, left, right)
      else
        if fltb (fpt_y center) (fpt_y right)
        then (right, center, left)
        else (center, right, left) in
    let top := fst (fst sel) in
    let bottom := snd (fst sel) in
    let side := snd sel in
    Ok [fsub (fpt_x top) (fpt_x side); fsub (fpt_x bottom) (fpt_x side)]
  else
    Ok [fsub (fpt_x center) (fpt_x left);
        fsub (fpt_x right) (fpt_x left);
        fsub (fpt_x right) (fpt_x center)].

(** * Properties *)

(** ** Comparisons of [rounding_t] values *)

Lemma Qltb_lt (x y : Q) : (x <? y)%Q = true <-> (x < y)%Q.
Proof.
  unfold Qltb. rewrite negb_true_iff. split.
  - intros H. apply Qnot_le_lt. intros Hle.
    apply Qle_bool_iff in Hle. congruence.
  - intros H. destruct (Qle_bool y x) eqn:E; [|reflexivity].
    apply Qle_bool_iff in E. lra.
Qed.

Lemma Qltb_ge (x y : Q) : (x <? y)%Q = false <-> (y <= x)%Q.
Proof.
  unfold Qltb. rewrite negb_false_iff. apply Qle_bool_iff.
Qed.

Lemma Qleb_gt (x y : Q) : (x <=? y)%Q = false <-> (y < x)%Q.
Proof.
  rewrite <- Qltb_lt. unfold Qltb. destruct (Qle_bool x y); simpl; intuition congruence.
Qed.

Lemma Qeqb_neq (x y : Q) : (x ==? y)%Q = false <-> ~ (x == y)%Q.
Proof.
  split.
  - apply Qeq_bool_neq.
  - intros H. destruct (Qeq_bool x y) eqn:E; [|reflexivity].
    apply Qeq_bool_iff in E. contradiction.
Qed.

(** Turns every boolean comparison among the hypotheses into the order
    fact it decides. *)
Ltac qprop :=
  repeat match goal with
  | H : (_ <? _)%Q = true |- _ => apply Qltb_lt in H
  | H : (_ <? _)%Q = false |- _ => apply Qltb_ge in H
  | H : (_ <=? _)%Q = true |- _ => apply Qle_bool_iff in H
  | H : (_ <=? _)%Q = false |- _ => apply Qleb_gt in H
  | H : (_ ==? _)%Q = true |- _ => apply Qeq_bool_iff in H
  | H : (_ ==? _)%Q = false |- _ => apply Qeqb_neq in H
  end.

(** ** writeTerminalNumber *)

Lemma numberAgrees_all :
  forallb
    (fun n => bool_decide
       (writeTerminalNumber n = if n =? 0 then [] else decimalDigits n))
    (map Z.of_nat (seq 0 256)) = true.
Proof. vm_compute. reflexivity. Qed.

(** C3, the failing instance: for the number 0 no byte is sent, where the
    decimal numeral is the one digit "0". *)
Lemma writeTerminalNumber_zero :
  writeTerminalNumber 0 = [] /\ decimalDigits 0 = [chr "0"].
Proof. split; reflexivity. Qed.

(** C3, as the code has it: for every number of 1..255 the bytes sent are
    the decimal digits of the number with no leading zero, and for 0 no
    byte is sent (the ones digit is guarded like the other two). *)
Theorem writeTerminalNumber_decimal (n : Z) :
  0 <= n <= 255 ->
  writeTerminalNumber n = (if n =? 0 then [] else decimalDigits n).
Proof.
  intros Hn.
  assert (Hin : In n (map Z.of_nat (seq 0 256))).
  { apply in_map_iff. exists (Z.to_nat n). split; [lia|].
    apply in_seq. lia. }
  pose proof numberAgrees_all as Hall.
  rewrite forallb_forall in Hall.
  specialize (Hall n Hin). simpl in Hall.
  apply bool_decide_eq_true in Hall. exact Hall.
Qed.

Lemma writeTerminalNumber_decimal_207 :
  writeTerminalNumber 207 = [chr "2"; chr "0"; chr "7"].
Proof. apply (writeTerminalNumber_decimal 207). lia. Defined.

(** ** Render_Engine_DisplayFrame *)

Lemma blankCells_blank (w : Z) (n : nat) :
  forall i, Forall blankByte (blankCells w n i).
Proof.
  induction n as [|n IH]; intros i; simpl.
  - constructor.
  - destruct ((0 <? i) && (i mod w =? 0)); simpl.
    + repeat (constructor; [unfold blankByte; auto|]). apply IH.
    + constructor; [unfold blankByte; auto | apply IH].
Qed.

(** While the cells read are 0 and the colour last selected is 0, the loop
    sends what [blankCells] sends. *)
Lemma displayCells_blank (frame : framebuffer_t) (m n : nat) :
  forall i,
    0 <= i -> i + Z.of_nat n < 65536 ->
    (forall j, i <= j < i + Z.of_nat n -> cell frame j = 0) ->
    displayCells frame (n + m) i 0
    = blankCells (width frame) n i
      ++ displayCells frame m (i + Z.of_nat n) 0.
Proof.
  induction n as [|n IH]; intros i Hi Hn Hz.
  - simpl. f_equal. lia.
  - cbn [Nat.add displayCells blankCells].
    rewrite (Hz i) by lia. cbn [Z.eqb negb].
    replace (u16 (i + 1)) with (i + 1)
      by (unfold u16; rewrite Z.mod_small; lia).
    rewrite IH; [| lia | lia | intros j Hj; apply Hz; lia].
    replace (i + 1 + Z.of_nat n) with (i + Z.of_nat (S n)) by lia.
    destruct ((0 <? i) && (i mod width frame =? 0)); simpl; reflexivity.
Qed.

(** C10: [lastColor] starts at 0, so as long as the cells are 0 nothing but
    blocks and row separators is sent after the cursor sequence: for a frame
    whose first [k] cells are 0 the output is the cursor sequence, then
    [blankCells] for these [k] cells, then the loop resumed at cell [k] with
    colour 0 still selected.  With [k] the number of cells the frame has,
    the whole output after the cursor sequence is blocks and separators. *)
Theorem displayFrame_zero_prefix (frame : framebuffer_t) (k : nat) :
  0 <= width frame <= 255 -> 0 <= height frame <= 255 ->
  Z.of_nat k <= width frame * height frame ->
  (forall j, 0 <= j < Z.of_nat k -> cell frame j = 0) ->
  Render_Engine_DisplayFrame frame
  = changeTerminalCursorLocation 0 0
    ++ blankCells (width frame) k 0
    ++ displayCells frame (Z.to_nat (width frame * height frame) - k)
         (Z.of_nat k) 0
  /\ Forall blankByte (blankCells (width frame) k 0)
  /\ (Z.of_nat k = width frame * height frame ->
      Render_Engine_DisplayFrame frame
      = changeTerminalCursorLocation 0 0 ++ blankCells (width frame) k 0).
Proof.
  intros Hw Hh Hk Hz.
  assert (Hsplit :
    Render_Engine_DisplayFrame frame
    = changeTerminalCursorLocation 0 0
      ++ blankCells (width frame) k 0
      ++ displayCells frame (Z.to_nat (width frame * height frame) - k)
           (Z.of_nat k) 0).
  { unfold Render_Engine_DisplayFrame. f_equal.
    replace (Z.to_nat (width frame * height frame))
      with (k + (Z.to_nat (width frame * height frame) - k))%nat at 1 by lia.
    rewrite displayCells_blank; [reflexivity | lia | nia | ].
    intros j Hj. apply Hz. lia. }
  split; [exact Hsplit|]. split; [apply blankCells_blank|].
  intros Hall. rewrite Hsplit.
  replace (Z.to_nat (width frame * height frame) - k)%nat with 0%nat by lia.
  simpl. rewrite app_nil_r. reflexivity.
Qed.

Lemma blackFrame_3_2_cells (j : Z) :
  0 <= j < Z.of_nat 6 -> cell (blackFrame 3 2) j = 0.
Proof.
  intros Hj.
  assert (Hc : j = 0 \/ j = 1 \/ j = 2 \/ j = 3 \/ j = 4 \/ j = 5) by lia.
  destruct Hc as [->|[->|[->|[->|[->| ->]]]]]; reflexivity.
Qed.

Lemma displayFrame_zero_prefix_black :
  Render_Engine_DisplayFrame (blackFrame 3 2)
  = changeTerminalCursorLocation 0 0
    ++ [chr " "; chr " "; chr " "; CR; LF; chr " "; chr " "; chr " "].
Proof.
  assert (Hw : 0 <= width (blackFrame 3 2) <= 255) by (simpl; lia).
  assert (Hh : 0 <= height (blackFrame 3 2) <= 255) by (simpl; lia).
  assert (Hk : Z.of_nat 6
               <= width (blackFrame 3 2) * height (blackFrame 3 2))
    by (simpl; lia).
  destruct (displayFrame_zero_prefix (blackFrame 3 2) 6 Hw Hh Hk
              blackFrame_3_2_cells) as [_ [_ Hall]].
  apply Hall. reflexivity.
Defined.

(** ** The left / centre / right classification *)

Ltac perm3 :=
  first
    [ apply Permutation_refl
    | apply perm_swap
    | apply perm_skip; apply perm_swap
    | eapply perm_trans; [apply perm_swap | apply perm_skip; apply perm_swap]
    | eapply perm_trans; [apply perm_skip; apply perm_swap | apply perm_swap]
    | eapply perm_trans;
      [apply perm_swap
      | eapply perm_trans; [apply perm_skip; apply perm_swap
                           | apply perm_swap]] ].

Lemma selection_ordered (p1 p2 p3 : point_t) :
  exists center,
    selectCenter (snd (selectLeft p1 p2 p3))
      (snd (selectRight (snd (selectLeft p1 p2 p3)) p1 p2 p3)) p1 p2 p3
    = Ok center
    /\ snd (selectLeft p1 p2 p3)
       <> snd (selectRight (snd (selectLeft p1 p2 p3)) p1 p2 p3)
    /\ Permutation
         [fst (selectLeft p1 p2 p3); center;
          fst (selectRight (snd (selectLeft p1 p2 p3)) p1 p2 p3)]
         [p1; p2; p3]
    /\ (pt_x (fst (selectLeft p1 p2 p3)) <= pt_x center)%Q
    /\ (pt_x center
        <= pt_x (fst (selectRight (snd (selectLeft p1 p2 p3)) p1 p2 p3)))%Q.
Proof.
  unfold selectLeft, selectRight, selectCenter.
  cbn [fst snd].
  destruct (pt_x p1 >? pt_x p2)%Q eqn:E12; cbn [fst snd];
  [ destruct (pt_x p2 >? pt_x p3)%Q eqn:E23
  | destruct (pt_x p1 >? pt_x p3)%Q eqn:E13 ];
  cbn [fst snd Z.eqb Pos.eqb negb orb andb];
  rewrite ?orb_true_r, ?orb_false_r, ?andb_true_r, ?andb_false_r;
  cbn [fst snd];
  repeat match goal with
  | |- context [Qltb ?a ?b] => destruct (Qltb a b) eqn:?;
                               cbn [fst snd Z.eqb Pos.eqb negb orb andb]
  end;
  qprop; try (exfalso; lra);
  eexists; (split; [reflexivity|]);
  (split; [discriminate|]); (split; [perm3|]); split; lra.
Qed.

(** C9: whatever the three projected points are, the selectors of the left
    and of the right point differ, a centre is assigned, the three selected
    points are the three projected points in some order, and their x
    coordinates ascend from left over centre to right. *)
Theorem classification_sorted (p1 p2 p3 : point_t) :
  exists center,
    selectCenter (snd (selectLeft p1 p2 p3))
      (snd (selectRight (snd (selectLeft p1 p2 p3)) p1 p2 p3)) p1 p2 p3
    = Ok center
    /\ snd (selectLeft p1 p2 p3)
       <> snd (selectRight (snd (selectLeft p1 p2 p3)) p1 p2 p3)
    /\ Permutation
         [fst (selectLeft p1 p2 p3); center;
          fst (selectRight (snd (selectLeft p1 p2 p3)) p1 p2 p3)]
         [p1; p2; p3]
    /\ (pt_x (fst (selectLeft p1 p2 p3)) <= pt_x center)%Q
    /\ (pt_x center
        <= pt_x (fst (selectRight (snd (selectLeft p1 p2 p3)) p1 p2 p3)))%Q.
Proof. exact (selection_ordered p1 p2 p3). Qed.

(** ** The loops end within their bound *)

Lemma loopBound_enough (a b : Q) :
  (2 * (a - b) < inject_Z (Z.of_nat (loopBound a b)))%Q
  /\ (2 * (b - a) < inject_Z (Z.of_nat (loopBound a b)))%Q.
Proof.
  unfold loopBound.
  set (c := Qceiling (2 * Qabs (a - b))).
  assert (Hc : (2 * Qabs (a - b) <= inject_Z c)%Q) by apply Qle_ceiling.
  assert (Habs : (0 <= Qabs (a - b))%Q) by apply Qabs_nonneg.
  assert (Hc0 : 0 <= c).
  { replace 0 with (Qceiling 0) by reflexivity.
    apply Qceiling_resp_le. lra. }
  rewrite Nat2Z.inj_succ, Z2Nat.id by exact Hc0.
  unfold Z.succ. rewrite inject_Z_plus.
  assert (H1 : (a - b <= Qabs (a - b))%Q) by apply Qle_Qabs.
  assert (H2 : (- (a - b) <= Qabs (a - b))%Q).
  { rewrite <- Qabs_opp. apply Qle_Qabs. }
  change (inject_Z 1) with 1%Q.
  split; lra.
Qed.

Lemma inject_succ (n : nat) :
  (inject_Z (Z.of_nat (S n)) == inject_Z (Z.of_nat n) + 1)%Q.
Proof.
  rewrite Nat2Z.inj_succ. unfold Z.succ. rewrite inject_Z_plus. reflexivity.
Qed.

(** A descending loop whose variable drops by a half at least each turn. *)
Lemma forLoop_down_ok (b : Q) (body : Q -> result (list paint_t * Q)) :
  (forall x, (b < x)%Q ->
     exists ps x', body x = Ok (ps, x') /\ (x' <= x - (1 # 2))%Q) ->
  forall fuel x,
    (2 * (x - b) < inject_Z (Z.of_nat fuel))%Q ->
    exists calls, forLoop fuel (fun x => x >? b)%Q body x = Ok calls.
Proof.
  intros Hbody. induction fuel as [|fuel IH]; intros x Hx; simpl.
  - destruct (b <? x)%Q eqn:E; [|eauto].
    qprop. change (inject_Z (Z.of_nat 0)) with 0%Q in Hx. lra.
  - destruct (b <? x)%Q eqn:E; [|eauto]. qprop.
    destruct (Hbody x E) as (ps & x' & Hb & Hx').
    rewrite Hb. simpl.
    destruct (IH x') as [rest Hrest].
    { pose proof (inject_succ fuel) as Hs. lra. }
    rewrite Hrest. simpl. eauto.
Qed.

(** An ascending loop whose variable rises by a half at least each turn. *)
Lemma forLoop_up_ok (b : Q) (body : Q -> result (list paint_t * Q)) :
  (forall x, (x < b)%Q ->
     exists ps x', body x = Ok (ps, x') /\ (x + (1 # 2) <= x')%Q) ->
  forall fuel x,
    (2 * (b - x) < inject_Z (Z.of_nat fuel))%Q ->
    exists calls, forLoop fuel (fun x => x <? b)%Q body x = Ok calls.
Proof.
  intros Hbody. induction fuel as [|fuel IH]; intros x Hx; simpl.
  - destruct (x <? b)%Q eqn:E; [|eauto].
    qprop. change (inject_Z (Z.of_nat 0)) with 0%Q in Hx. lra.
  - destruct (x <? b)%Q eqn:E; [|eauto]. qprop.
    destruct (Hbody x E) as (ps & x' & Hb & Hx').
    rewrite Hb. simpl.
    destruct (IH x') as [rest Hrest].
    { pose proof (inject_succ fuel) as Hs. lra. }
    rewrite Hrest. simpl. eauto.
Qed.

Lemma paintDown_ok (x topY bottomY : Q) (color : Z) :
  exists calls, paintDown x topY bottomY color = Ok calls.
Proof.
  unfold paintDown. apply forLoop_down_ok.
  - intros y _. eexists _, _. split; [reflexivity|]. simpl. lra.
  - apply loopBound_enough.
Qed.

Lemma paintColumn_ok (x topY bottomY : Q) (color : Z) :
  exists calls, paintColumn x topY bottomY color = Ok calls.
Proof.
  unfold paintColumn.
  destruct (paintDown_ok x topY bottomY color) as [col ->]. simpl. eauto.
Qed.

Lemma floor_bounds (x : Q) : (floor x <= x < floor x + 1)%Q.
Proof.
  unfold floor. split; [apply Qfloor_le|].
  pose proof (Qlt_floor x) as H. rewrite inject_Z_plus in H. exact H.
Qed.

Lemma snap_bounds (x : Q) : (x - (1 # 2) <= snap x <= x + (1 # 2))%Q.
Proof.
  unfold snap. pose proof (floor_bounds x) as Hf.
  destruct (x - floor x ==? 1 # 2)%Q eqn:E; simpl; qprop; lra.
Qed.

(** ** No slope divides by zero *)

Lemma fdiv_ok (a b : Q) : ~ (b == 0)%Q -> fdiv a b = Ok (a / b)%Q.
Proof.
  intros H. unfold fdiv. apply Qeqb_neq in H. rewrite H. reflexivity.
Qed.

Lemma paintLine_ok (w color : Z) (p1 p2 p3 center : point_t) :
  exists calls, paintLine w color p1 p2 p3 center = Ok calls.
Proof.
  unfold paintLine.
  destruct ((pt_x center <? 0)%Q || (pt_x center >=? inject_Z w)%Q);
    [eauto | apply paintDown_ok].
Qed.

Lemma edgeColumn_ok (color : Z) (u l : Q) (side : point_t) (x : Q) :
  exists col, edgeColumn color u l side x = Ok (col, snap x).
Proof.
  unfold edgeColumn.
  destruct (paintColumn_ok x (u * (x - pt_x side) + pt_y side)
              (l * (x - pt_x side) + pt_y side) color) as [col ->].
  simpl. eauto.
Qed.

Lemma edgeSweep_ok (color : Z) (top bottom side : point_t) (dir : bool) :
  ~ (pt_x top == pt_x side)%Q -> ~ (pt_x bottom == pt_x side)%Q ->
  exists calls, edgeSweep color top bottom side dir = Ok calls.
Proof.
  intros Ht Hb. unfold edgeSweep.
  rewrite !fdiv_ok by lra. cbn [bind].
  set (u := ((pt_y top - pt_y side) / (pt_x top - pt_x side))%Q).
  set (l := ((pt_y bottom - pt_y side) / (pt_x bottom - pt_x side))%Q).
  destruct dir.
  - destruct (forLoop_down_ok (pt_x side)
                (fun x => do r <- edgeColumn color u l side x;
                          Ok (fst r, snd r - 1)%Q)) with
      (fuel := loopBound (pt_x top) (pt_x side)) (x := pt_x top)
      as [cols Hcols].
    + intros x _. destruct (edgeColumn_ok color u l side x) as [col ->].
      cbn [bind fst snd]. eexists _, _. split; [reflexivity|].
      pose proof (snap_bounds x). lra.
    + apply loopBound_enough.
    + rewrite Hcols. cbn [bind]. eauto.
  - destruct (forLoop_up_ok (pt_x side)
                (fun x => do r <- edgeColumn color u l side x;
                          Ok (fst r, snd r + 1)%Q)) with
      (fuel := loopBound (pt_x top) (pt_x side)) (x := pt_x top)
      as [cols Hcols].
    + intros x _. destruct (edgeColumn_ok color u l side x) as [col ->].
      cbn [bind fst snd]. eexists _, _. split; [reflexivity|].
      pose proof (snap_bounds x). lra.
    + apply loopBound_enough.
    + rewrite Hcols. cbn [bind]. eauto.
Qed.

Lemma paintVerticalEdge_ok (color : Z) (left center right : point_t) :
  ~ ((pt_x left == pt_x center)%Q /\ (pt_x center == pt_x right)%Q) ->
  (pt_x left == pt_x center)%Q \/ (pt_x center == pt_x right)%Q ->
  exists calls, paintVerticalEdge color left center right = Ok calls.
Proof.
  intros Hnot Hor. unfold paintVerticalEdge.
  destruct (pt_x left ==? pt_x center)%Q eqn:Elc; qprop.
  - assert (Hcr : ~ (pt_x center == pt_x right)%Q) by tauto.
    destruct (pt_y left >? pt_y center)%Q;
      apply edgeSweep_ok; lra.
  - assert (Hcr : (pt_x center == pt_x right)%Q) by tauto.
    destruct (pt_y right >? pt_y center)%Q;
      apply edgeSweep_ok; lra.
Qed.

Lemma sweepColumn_ok (w color : Z) (a b : Q) (o : point_t) (x : Q) :
  exists ps x',
    sweepColumn w color a b o x = Ok (ps, x') /\ (x + (1 # 2) <= x')%Q.
Proof.
  unfold sweepColumn.
  destruct ((x <? 0)%Q || (x >=? inject_Z w)%Q).
  - eexists _, _. split; [reflexivity|]. lra.
  - match goal with
    | |- context [paintColumn ?x ?t ?b ?c] =>
      destruct (paintColumn_ok x t b c) as [col ->]
    end.
    cbn [bind]. eexists _, _. split; [reflexivity|].
    pose proof (snap_bounds x). lra.
Qed.

Lemma paintGeneral_ok (w color : Z) (left center right : point_t) :
  (pt_x left < pt_x center)%Q -> (pt_x center < pt_x right)%Q ->
  exists calls, paintGeneral w color left center right = Ok calls.
Proof.
  intros Hlc Hcr. unfold paintGeneral.
  rewrite !fdiv_ok by lra. cbn [bind].
  match goal with
  | |- context [forLoop ?f (fun x => x <? pt_x center)%Q ?body ?x0] =>
    destruct (forLoop_up_ok (pt_x center) body) with (fuel := f) (x := x0)
      as [leftCols ->];
    [ intros x _; apply sweepColumn_ok | apply loopBound_enough | ]
  end.
  cbn [bind].
  match goal with
  | |- context [forLoop ?f (fun x => x <? pt_x right)%Q ?body ?x0] =>
    destruct (forLoop_up_ok (pt_x right) body) with (fuel := f) (x := x0)
      as [rightCols ->];
    [ intros x _; apply sweepColumn_ok | apply loopBound_enough | ]
  end.
  cbn [bind]. eauto.
Qed.

Lemma paintTriangle_ok (w color : Z) (p1 p2 p3 : point_t) :
  exists calls, paintTriangle w color p1 p2 p3 = Ok calls.
Proof.
  unfold paintTriangle.
  destruct (selection_ordered p1 p2 p3)
    as (center & -> & _ & _ & Hlc & Hcr).
  cbn [bind]. unfold paintShape.
  set (left := fst (selectLeft p1 p2 p3)) in *.
  set (right := fst (selectRight (snd (selectLeft p1 p2 p3)) p1 p2 p3)) in *.
  destruct (pt_x left ==? pt_x center)%Q eqn:E1;
    destruct (pt_x center ==? pt_x right)%Q eqn:E2;
    cbn [andb orb]; qprop.
  - apply paintLine_ok.
  - apply paintVerticalEdge_ok; tauto.
  - apply paintVerticalEdge_ok; tauto.
  - apply paintGeneral_ok; lra.
Qed.

Ltac fsimp :=
  cbn [fltb feqb fsub isZero isNaN fst snd fpt_x fpt_y andb orb negb bind];
  cbv [Z.add Z.eqb Pos.add Pos.eqb Pos.succ];
  cbn [fltb feqb fsub isZero isNaN fst snd fpt_x fpt_y andb orb negb bind].

Ltac fcase :=
  match goal with
  | |- context [Qltb ?a ?b] => destruct (Qltb a b) eqn:?
  | |- context [Qeq_bool ?a ?b] =>
    lazymatch b with
    | 0%Q => fail
    | _ => destruct (Qeq_bool a b) eqn:?
    end
  | |- context [fltb ?a ?b] => destruct (fltb a b) eqn:?
  end.

(** With three x that are not NaN (rationals or infinities) every divisor
    of the branch taken is a difference of two x the tests found unequal:
    it is not zero and not NaN. *)
Lemma slopeDivisors_sound (p1 p2 p3 : fpoint) :
  isNaN (fpt_x p1) = false -> isNaN (fpt_x p2) = false ->
  isNaN (fpt_x p3) = false ->
  exists ds,
    slopeDivisors p1 p2 p3 = Ok ds
    /\ Forall (fun d => isZero d = false /\ isNaN d = false) ds.
Proof.
  destruct p1 as [x1 y1], p2 as [x2 y2], p3 as [x3 y3]. cbn [fpt_x].
  intros H1 H2 H3.
  destruct x1 as [|x1| |]; try discriminate H1;
  destruct x2 as [|x2| |]; try discriminate H2;
  destruct x3 as [|x3| |]; try discriminate H3;
  clear H1 H2 H3;
  unfold slopeDivisors, selectLeftF, selectRightF, selectCenterF;
  fsimp; repeat (fcase; fsimp);
  qprop; try (exfalso; lra);
  (eexists; split; [reflexivity|]);
  repeat (constructor; [split; [|reflexivity]|]);
  try constructor;
  try reflexivity;
  apply Qeqb_neq; intros E; lra.
Qed.

(** On points of rational coordinates the selection of [slopeDivisors] is
    the selection of the rasteriser. *)
Lemma selection_finite (p1 p2 p3 : point_t) :
  selectLeftF (finite p1) (finite p2) (finite p3)
  = (finite (fst (selectLeft p1 p2 p3)), snd (selectLeft p1 p2 p3))
  /\ forall k,
       selectRightF k (finite p1) (finite p2) (finite p3)
       = (finite (fst (selectRight k p1 p2 p3)),
          snd (selectRight k p1 p2 p3)).
Proof.
  split.
  - unfold selectLeftF, selectLeft. cbn [fst finite fpt_x fltb].
    destruct (pt_x p1 >? pt_x p2)%Q; cbn [fst finite fpt_x fltb];
      destruct (_ >? pt_x p3)%Q; reflexivity.
  - intros k. unfold selectRightF, selectRight.
    cbn [fst finite fpt_x fltb].
    destruct (((pt_x p3 <? pt_x p2)%Q || (k =? 3)) && negb (k =? 2));
      cbn [fst finite fpt_x fltb];
      destruct ((_ <? pt_x p1)%Q && negb (k =? 1)); reflexivity.
Qed.

(** C7, the failing instance: p2.x is NaN and p1.x = p3.x = 3.  Every
    comparison with p2.x is false, so left = p1, right = p3 and centre =
    p2; the tests of lines 140 and 166 fail on the NaN, and the divisor
    [right.x - left.x] of line 252 is 0. *)
Lemma slopeDivisors_NaN_zero :
  slopeDivisors (mkFPoint (Fin 3) (Fin 0)) (mkFPoint NaN (Fin 1))
    (mkFPoint (Fin 3) (Fin 2))
  = Ok [NaN; Fin (3 - 3); NaN]
  /\ isZero (Fin (3 - 3)) = true.
Proof. split; reflexivity. Qed.

(** C7, as the code has it: for three projected points whose x are not NaN
    no slope is a quotient by zero: every divisor of lines 193-194 and
    251-253 is a difference of two x that are not equal, so not zero and
    not NaN; and on points of rational coordinates the classification and
    the painting of the triangle run to their end (a zero divisor would be
    the fault [DivisionByZero]). *)
Theorem slope_divisors_nonzero (p1 p2 p3 : fpoint) :
  isNaN (fpt_x p1) = false -> isNaN (fpt_x p2) = false ->
  isNaN (fpt_x p3) = false ->
  (exists ds,
     slopeDivisors p1 p2 p3 = Ok ds
     /\ Forall (fun d => isZero d = false /\ isNaN d = false) ds)
  /\ (forall (w color : Z) (q1 q2 q3 : point_t),
        p1 = finite q1 -> p2 = finite q2 -> p3 = finite q3 ->
        exists calls, paintTriangle w color q1 q2 q3 = Ok calls).
Proof.
  intros H1 H2 H3. split.
  - exact (slopeDivisors_sound p1 p2 p3 H1 H2 H3).
  - intros w color q1 q2 q3 _ _ _. apply paintTriangle_ok.
Qed.

Lemma slope_divisors_nonzero_edge :
  (exists ds,
     slopeDivisors (finite (mkPoint 3 5)) (finite (mkPoint 3 2))
       (finite (mkPoint 6 4)) = Ok ds
     /\ Forall (fun d => isZero d = false /\ isNaN d = false) ds)
  /\ (forall (w color : Z) (q1 q2 q3 : point_t),
        finite (mkPoint 3 5) = finite q1 ->
        finite (mkPoint 3 2) = finite q2 ->
        finite (mkPoint 6 4) = finite q3 ->
        exists calls, paintTriangle w color q1 q2 q3 = Ok calls).
Proof.
  exact (slope_divisors_nonzero (finite (mkPoint 3 5))
           (finite (mkPoint 3 2)) (finite (mkPoint 6 4))
           eq_refl eq_refl eq_refl).
Defined.

(** *** The whole frame

    The divisions left in [Render_Engine_RenderFrame] are those by the
    angle per pixel and by the frame's sides: with a frame that has cells
    and fields of view that are not zero the frame is rendered to its end,
    whatever the libm and the sorting function. *)

Lemma Qdiv_nonzero (a b : Q) :
  ~ (a == 0)%Q -> ~ (b == 0)%Q -> ~ (a / b == 0)%Q.
Proof.
  intros Ha Hb H. apply Ha.
  assert (E : (a == (a / b) * b)%Q) by (field; exact Hb).
  rewrite E, H. ring.
Qed.

Lemma inject_Z_nonzero (z : Z) : z <> 0 -> ~ (inject_Z z * 180 == 0)%Q.
Proof.
  intros Hz H. unfold Qeq in H. simpl in H. lia.
Qed.

Lemma anglePerPixel_nonzero (fov : Q) (side : Z) :
  ~ (fov == 0)%Q -> side <> 0 ->
  ~ (fov * M_PI / (inject_Z side * 180) == 0)%Q.
Proof.
  intros Hf Hs. apply Qdiv_nonzero; [|apply inject_Z_nonzero; exact Hs].
  intros H. apply Hf.
  assert (Hpi : ~ (M_PI == 0)%Q) by (intros E; discriminate E).
  assert (E : (fov == (fov * M_PI) / M_PI)%Q) by (field; exact Hpi).
  rewrite E, H. field. exact Hpi.
Qed.

Lemma pointToScreen_ok (M : libm) (d : vector_t) (h v aH aV : Q)
    (hw hh : Z) :
  ~ (aH == 0)%Q -> ~ (aV == 0)%Q ->
  exists p, pointToScreen M d h v aH aV hw hh = Ok p.
Proof.
  intros HaH HaV. unfold pointToScreen.
  rewrite (fdiv_ok _ aH HaH). cbn [bind].
  rewrite (fdiv_ok _ aV HaV). cbn [bind]. eauto.
Qed.

Lemma renderTriangle_ok (M : libm) (camera : camera_t) (w : Z) (aH aV : Q)
    (hw hh : Z) (t : triangle_t) :
  ~ (aH == 0)%Q -> ~ (aV == 0)%Q ->
  exists calls, renderTriangle M camera w aH aV hw hh t = Ok calls.
Proof.
  intros HaH HaV. unfold renderTriangle.
  destruct (behindCamera _ _ _ _); [eauto|].
  repeat match goal with
  | |- context [pointToScreen M ?d ?h ?v aH aV hw hh] =>
    let p := fresh "p" in
    destruct (pointToScreen_ok M d h v aH aV hw hh HaH HaV) as [p ->];
    cbn [bind]
  end.
  apply paintTriangle_ok.
Qed.

Lemma renderTriangles_ok (step : triangle_t -> result (list paint_t)) :
  (forall t, exists calls, step t = Ok calls) ->
  forall ts, exists calls, renderTriangles step ts = Ok calls.
Proof.
  intros Hstep. induction ts as [|t ts [rest IH]]; simpl.
  - eauto.
  - destruct (Hstep t) as [calls ->]. cbn [bind].
    rewrite IH. cbn [bind]. eauto.
Qed.

Lemma RenderFrame_total (M : libm)
    (qsort : (triangle_t -> triangle_t -> Z) ->
             list triangle_t -> list triangle_t)
    (world : world_t) (camera : camera_t) (frame : framebuffer_t) :
  width frame <> 0 -> height frame <> 0 ->
  ~ (fovHorizontal camera == 0)%Q -> ~ (fovVertical camera == 0)%Q ->
  exists frame',
    Render_Engine_RenderFrame M qsort world camera frame = Ok frame'.
Proof.
  intros Hw Hh HfH HfV. unfold Render_Engine_RenderFrame.
  rewrite (fdiv_ok _ _ (inject_Z_nonzero _ Hw)). cbn [bind].
  rewrite (fdiv_ok _ _ (inject_Z_nonzero _ Hh)). cbn [bind].
  match goal with
  | |- context [renderTriangles ?step ?sorted] =>
    assert (Hstep : forall t, exists calls, step t = Ok calls)
      by (intros t; apply renderTriangle_ok;
          apply anglePerPixel_nonzero; assumption);
    destruct (renderTriangles_ok step Hstep sorted) as [calls ->]
  end.
  cbn [bind]. eauto.
Qed.

(** ** The heading of the camera *)

Lemma Qtrunc_floor (q : Q) : (0 <= q)%Q -> Qtrunc q = Qfloor q.
Proof.
  intros H. unfold Qle in H. destruct q as [n d]. simpl in H.
  unfold Qtrunc, Qfloor. simpl. apply Z.quot_div_nonneg; lia.
Qed.

(** [fmod] by 360 of a value that is not negative. *)
Lemma fmod_360 (x : Q) :
  (0 <= x)%Q ->
  (fmod x 360 == Qmod x 360)%Q /\ (0 <= fmod x 360 < 360)%Q.
Proof.
  intros Hx. unfold fmod, Qmod.
  assert (Hq : (0 <= x / 360)%Q).
  { apply Qle_shift_div_l; [reflexivity | lra]. }
  rewrite (Qtrunc_floor _ Hq).
  pose proof (Qfloor_le (x / 360)) as Hlo.
  pose proof (Qlt_floor (x / 360)) as Hhi.
  rewrite inject_Z_plus in Hhi. change (inject_Z 1) with 1%Q in Hhi.
  set (f := inject_Z (Qfloor (x / 360))) in *.
  assert (Hx360 : (x == (x / 360) * 360)%Q) by (field; discriminate).
  split; [ring | split; lra].
Qed.

Lemma normalizedYaw_facts (camera : camera_t) :
  (normalizedYaw camera == signedWrap (vec_z (rotation camera)))%Q
  /\ (exists k : Z,
        (normalizedYaw camera
         == vec_z (rotation camera) - 360 * inject_Z k)%Q)
  /\ ((0 <= vec_z (rotation camera))%Q ->
      (- (180) <= normalizedYaw camera < 180)%Q)
  /\ ((vec_z (rotation camera) < 0)%Q ->
      (- (180) < normalizedYaw camera <= 180)%Q).
Proof.
  unfold normalizedYaw, signedWrap.
  set (yaw := vec_z (rotation camera)).
  destruct (yaw <? 0)%Q eqn:E; qprop.
  - assert (Hpos : (0 <= - yaw + 180)%Q) by lra.
    destruct (fmod_360 _ Hpos) as [Hmod Hrange].
    assert (Habs : (Qabs yaw == - yaw)%Q) by (apply Qabs_neg; lra).
    destruct (Qlt_le_dec yaw 0) as [_|Hge]; [|lra].
    split; [|split; [|split]].
    + rewrite Hmod. unfold Qmod.
      assert (Hf : Qfloor ((- yaw + 180) / 360)
                   = Qfloor ((Qabs yaw + 180) / 360)).
      { apply Qfloor_comp. rewrite Habs. reflexivity. }
      rewrite Hf.
      set (g := inject_Z (Qfloor ((Qabs yaw + 180) / 360))). lra.
    + exists (- Qtrunc ((- yaw + 180) / 360)).
      unfold fmod. rewrite inject_Z_opp. ring.
    + intros H. lra.
    + intros _. lra.
  - assert (Hpos : (0 <= yaw + 180)%Q) by lra.
    destruct (fmod_360 _ Hpos) as [Hmod Hrange].
    assert (Habs : (Qabs yaw == yaw)%Q) by (apply Qabs_pos; lra).
    destruct (Qlt_le_dec yaw 0) as [Hlt|_]; [lra|].
    split; [|split; [|split]].
    + rewrite Hmod. unfold Qmod.
      assert (Hf : Qfloor ((yaw + 180) / 360)
                   = Qfloor ((Qabs yaw + 180) / 360)).
      { apply Qfloor_comp. rewrite Habs. reflexivity. }
      rewrite Hf.
      set (g := inject_Z (Qfloor ((Qabs yaw + 180) / 360))). lra.
    + exists (Qtrunc ((yaw + 180) / 360)).
      unfold fmod. ring.
    + intros _. lra.
    + intros H. lra.
Qed.

(** C8, the failing instance: a yaw of exactly 180 is normalized to -180,
    which is outside (-180, 180]. *)
Lemma normalizedYaw_turned :
  (normalizedYaw turnedCamera == - (180))%Q
  /\ ~ (- (180) < normalizedYaw turnedCamera <= 180)%Q.
Proof.
  split.
  - vm_compute. reflexivity.
  - intros [H _]. vm_compute in H. discriminate.
Qed.

(** C8, as the code has it: the normalized yaw is ((|yaw| + 180) mod 360)
    - 180 with the sign reapplied when yaw < 0; it differs from the yaw by a
    whole number of turns; it lies in [-180, 180) when the yaw is not
    negative and in (-180, 180] when it is negative. *)
Theorem normalizedYaw_range (camera : camera_t) :
  (normalizedYaw camera == signedWrap (vec_z (rotation camera)))%Q
  /\ (exists k : Z,
        (normalizedYaw camera
         == vec_z (rotation camera) - 360 * inject_Z k)%Q)
  /\ ((0 <= vec_z (rotation camera))%Q ->
      (- (180) <= normalizedYaw camera < 180)%Q)
  /\ ((vec_z (rotation camera) < 0)%Q ->
      (- (180) < normalizedYaw camera <= 180)%Q).
Proof. exact (normalizedYaw_facts camera). Qed.

Lemma signTest_cases (v : Q) :
  ((0 < v)%Q /\ signTest v = 1)
  \/ ((v == 0)%Q /\ signTest v = 0)
  \/ ((v < 0)%Q /\ signTest v = -1).
Proof.
  unfold signTest.
  destruct (v >? 0)%Q eqn:Ep; destruct (v <? 0)%Q eqn:En; qprop.
  - lra.
  - left. split; [exact Ep | reflexivity].
  - right. right. split; [exact En | reflexivity].
  - right. left. split; [lra | reflexivity].
Qed.

(** Which of the two operands of line 47 is taken: [tan] at or beyond 90
    on either side, the sign times 10000 strictly between -90 and 90, the
    angle compared being the pitch already converted to radians. *)
Lemma cameraDirection_z_cases (M : libm) (camera : camera_t) :
  (((cameraVerticalAngle camera <= - (90))%Q
    \/ (90 <= cameraVerticalAngle camera)%Q) ->
   vec_z (cameraDirection M camera) = tan M (cameraVerticalAngle camera))
  /\ ((- (90) < cameraVerticalAngle camera < 90)%Q ->
      vec_z (cameraDirection M camera)
      = inject_Z (signTest (cameraVerticalAngle camera) * 10000)).
Proof.
  unfold cameraDirection. cbn [vec_z].
  destruct (cameraVerticalAngle camera <=? - (90))%Q eqn:E1;
    destruct (cameraVerticalAngle camera >=? 90)%Q eqn:E2;
    cbn [orb]; qprop; split; intros H; try reflexivity; lra.
Qed.

Lemma cameraVerticalAngle_zero (camera : camera_t) :
  (vec_y (rotation camera) == 0)%Q -> (cameraVerticalAngle camera == 0)%Q.
Proof.
  intros H. unfold cameraVerticalAngle. rewrite H. reflexivity.
Qed.

(** C1, the failing instance: with a pitch of exactly 0 the z component of
    the heading is 0 whatever the libm, and not 10000: [(0 > 0) - (0 < 0)]
    is 0.  With a pitch of 45 degrees it is 10000 whatever the libm: [tan]
    is not called. *)
Lemma cameraDirection_z_level :
  (forall M, (vec_z (cameraDirection M levelCamera) == 0)%Q)
  /\ signTest 0 = 0
  /\ ~ (0 == 10000)%Q
  /\ (forall M, (vec_z (cameraDirection M pitchedCamera) == 10000)%Q).
Proof.
  split; [|split; [|split]].
  - intros M. vm_compute. reflexivity.
  - reflexivity.
  - intros H. vm_compute in H. discriminate.
  - intros M. vm_compute. reflexivity.
Qed.

(** C1, as the code has it: the z component of the heading is [tan] of the
    pitch in radians or the sign test of that angle times 10000; the sign
    test is 1, 0 or -1 as the angle is positive, zero or negative; and a
    pitch of exactly 0 gives the z component 0. *)
Theorem cameraDirection_z (M : libm) (camera : camera_t) :
  (vec_z (cameraDirection M camera) = tan M (cameraVerticalAngle camera)
   \/ vec_z (cameraDirection M camera)
      = inject_Z (signTest (cameraVerticalAngle camera) * 10000))
  /\ (((0 < cameraVerticalAngle camera)%Q
       /\ signTest (cameraVerticalAngle camera) = 1)
      \/ ((cameraVerticalAngle camera == 0)%Q
          /\ signTest (cameraVerticalAngle camera) = 0)
      \/ ((cameraVerticalAngle camera < 0)%Q
          /\ signTest (cameraVerticalAngle camera) = -1))
  /\ ((vec_y (rotation camera) == 0)%Q ->
      (vec_z (cameraDirection M camera) == 0)%Q).
Proof.
  split; [|split].
  - unfold cameraDirection. cbn [vec_z].
    destruct ((cameraVerticalAngle camera <=? - (90))%Q
              || (cameraVerticalAngle camera >=? 90)%Q); auto.
  - apply signTest_cases.
  - intros Hp. apply cameraVerticalAngle_zero in Hp.
    destruct (cameraDirection_z_cases M camera) as [_ Hin].
    rewrite Hin by lra.
    destruct (signTest_cases (cameraVerticalAngle camera))
      as [[H _]|[[_ ->]|[H _]]]; [lra | reflexivity | lra].
Qed.

(** ** Triangles behind the camera *)







(** ** The order of the triangles *)

Lemma compareTriangles_le (cam : vector_t) (a b : triangle_t) :
  compareTriangles cam a b <= 0 <-> (dist cam b <= dist cam a)%Q.
Proof.
  unfold compareTriangles.
  destruct (dist cam a ==? dist cam b)%Q eqn:Eeq;
    [|destruct (dist cam a <? dist cam b)%Q eqn:Elt]; qprop;
    split; intros H; try lia; lra.
Qed.

Lemma compareTriangles_consistent (cam : vector_t) :
  comparator_consistent (compareTriangles cam).
Proof.
  split.
  - intros a b. unfold compareTriangles.
    destruct (dist cam a ==? dist cam b)%Q eqn:E1;
      destruct (dist cam b ==? dist cam a)%Q eqn:E2;
      destruct (dist cam a <? dist cam b)%Q eqn:E3;
      destruct (dist cam b <? dist cam a)%Q eqn:E4;
      qprop; try reflexivity; exfalso; lra.
  - intros a b c. rewrite !compareTriangles_le. lra.
Qed.


Lemma insertSorted_perm {A : Type} (cmp : A -> A -> Z) (a : A) (l : list A) :
  Permutation (a :: l) (insertSorted cmp a l).
Proof.
  induction l as [|b l IH]; simpl.
  - apply Permutation_refl.
  - destruct (cmp a b <=? 0).
    + apply Permutation_refl.
    + eapply perm_trans; [apply perm_swap|]. apply perm_skip. exact IH.
Qed.

Lemma insertSorted_sorted {A : Type} (cmp : A -> A -> Z) (a : A)
    (l : list A) :
  comparator_consistent cmp ->
  StronglySorted (fun x y => cmp x y <= 0) l ->
  StronglySorted (fun x y => cmp x y <= 0) (insertSorted cmp a l).
Proof.
  intros [Hanti Htrans]. induction 1 as [|b l Hs IH Hall]; simpl.
  - constructor; constructor.
  - destruct (cmp a b <=? 0) eqn:E.
    + apply Z.leb_le in E. constructor.
      * constructor; assumption.
      * constructor; [exact E|].
        eapply Forall_impl; [exact Hall|].
        intros x Hx. simpl in Hx. exact (Htrans a b x E Hx).
    + apply Z.leb_gt in E. constructor; [exact IH|].
      eapply Permutation_Forall; [apply insertSorted_perm|].
      constructor; [|exact Hall].
      pose proof (Hanti a b) as Hab. lia.
Qed.

Lemma insertionSort_contract {A : Type} :
  qsort_contract (@insertionSort A).
Proof.
  intros cmp l Hc. induction l as [|a l [IHp IHs]]; simpl.
  - split; constructor.
  - split.
    + eapply perm_trans; [apply perm_skip; exact IHp|].
      apply insertSorted_perm.
    + apply insertSorted_sorted; assumption.
Qed.



(** ** Writes stay inside the frame *)

Lemma to_uint16_range (x : Q) : 0 <= to_uint16 x < 65536.
Proof. unfold to_uint16, u16. apply Z.mod_pos_bound. lia. Qed.

Lemma paintPixel_cases (frame : framebuffer_t) (x y color : Z) :
  0 <= x -> 0 <= y ->
  paintPixel frame x y color = frame
  \/ (x < width frame /\ y < height frame
      /\ 0 <= x + y * width frame < width frame * height frame
      /\ paintPixel frame x y color
         = mkFrame (width frame) (height frame)
             (<[Z.to_nat (x + y * width frame) := color]> (buffer frame))).
Proof.
  intros Hx Hy. unfold paintPixel.
  destruct (x <? width frame) eqn:Ex; [|left; reflexivity].
  destruct (y <? height frame) eqn:Ey; [|left; reflexivity].
  apply Z.ltb_lt in Ex, Ey. right. cbn [andb].
  repeat split; try assumption; nia.
Qed.

(** Every call of [paintPixelf] leaves the frame as it is or writes the
    colour into one cell whose column is below the width, whose row is
    below the height and whose index is below width * height. *)
Lemma paintPixelf_in_bounds (frame : framebuffer_t) (x y : Q) (color : Z) :
  paintPixelf frame x y color = frame
  \/ exists px py,
       0 <= px < width frame /\ 0 <= py < height frame
       /\ 0 <= px + py * width frame < width frame * height frame
       /\ paintPixelf frame x y color
          = mkFrame (width frame) (height frame)
              (<[Z.to_nat (px + py * width frame) := color]> (buffer frame)).
Proof.
  unfold paintPixelf.
  destruct ((x >=? 0)%Q && (y >=? 0)%Q); [|left; reflexivity].
  pose proof (to_uint16_range x) as Hx.
  pose proof (to_uint16_range y) as Hy.
  destruct (paintPixel_cases frame (to_uint16 x) (to_uint16 y) color)
    as [H|(H1 & H2 & H3 & H4)]; [lia | lia | left; exact H |].
  right. exists (to_uint16 x), (to_uint16 y).
  repeat split; try lia. exact H4.
Qed.

(** A call with a negative coordinate, or with coordinates that fit 16 bits
    and lie right of or below the frame, changes nothing. *)
Lemma paintPixelf_dropped (frame : framebuffer_t) (x y : Q) (color : Z) :
  (x < 0)%Q \/ (y < 0)%Q
  \/ (Qtrunc x < 65536 /\ Qtrunc y < 65536
      /\ (width frame <= Qtrunc x \/ height frame <= Qtrunc y)) ->
  paintPixelf frame x y color = frame.
Proof.
  intros H. unfold paintPixelf.
  destruct (x >=? 0)%Q eqn:Ex; [|reflexivity].
  destruct (y >=? 0)%Q eqn:Ey; [|reflexivity].
  qprop. cbn [andb].
  destruct H as [H|[H|(Hx & Hy & H)]]; [lra | lra |].
  assert (Hx0 : 0 <= Qtrunc x).
  { rewrite Qtrunc_floor by exact Ex.
    replace 0 with (Qfloor 0) by reflexivity.
    apply Qfloor_resp_le. exact Ex. }
  assert (Hy0 : 0 <= Qtrunc y).
  { rewrite Qtrunc_floor by exact Ey.
    replace 0 with (Qfloor 0) by reflexivity.
    apply Qfloor_resp_le. exact Ey. }
  unfold paintPixel, to_uint16, u16.
  rewrite !Z.mod_small by lia.
  destruct H as [H|H].
  - apply Z.ltb_ge in H. rewrite H. reflexivity.
  - apply Z.ltb_ge in H. rewrite H. rewrite andb_false_r. reflexivity.
Qed.

Lemma paintPixelf_shape (frame : framebuffer_t) (x y : Q) (color : Z) :
  width (paintPixelf frame x y color) = width frame
  /\ height (paintPixelf frame x y color) = height frame
  /\ length (buffer (paintPixelf frame x y color)) = length (buffer frame).
Proof.
  destruct (paintPixelf_in_bounds frame x y color)
    as [->|(px & py & _ & _ & _ & ->)]; cbn [width height buffer].
  - auto.
  - rewrite length_insert. auto.
Qed.

Lemma paintAll_shape (calls : list paint_t) :
  forall frame,
    width (paintAll frame calls) = width frame
    /\ height (paintAll frame calls) = height frame
    /\ length (buffer (paintAll frame calls)) = length (buffer frame).
Proof.
  induction calls as [|c calls IH]; intros frame; simpl.
  - auto.
  - destruct (IH (paintPixelf frame (paint_x c) (paint_y c) (paint_color c)))
      as (Hw & Hh & Hl).
    destruct (paintPixelf_shape frame (paint_x c) (paint_y c) (paint_color c))
      as (Hw' & Hh' & Hl').
    unfold paintAll in *. simpl. rewrite Hw, Hh, Hl. auto.
Qed.

Lemma clearCells_length (n : nat) (color : Z) :
  forall i buf, length (clearCells n i color buf) = length buf.
Proof.
  induction n as [|n IH]; intros i buf; simpl.
  - reflexivity.
  - rewrite IH. apply length_insert.
Qed.

(** A frame that is rendered keeps its width, its height and the length of
    its buffer. *)
Lemma RenderFrame_shape (M : libm)
    (qsort : (triangle_t -> triangle_t -> Z) ->
             list triangle_t -> list triangle_t)
    (world : world_t) (camera : camera_t) (frame frame' : framebuffer_t) :
  Render_Engine_RenderFrame M qsort world camera frame = Ok frame' ->
  width frame' = width frame
  /\ height frame' = height frame
  /\ length (buffer frame') = length (buffer frame).
Proof.
  unfold Render_Engine_RenderFrame.
  destruct (fdiv _ _) as [aH|]; cbn [bind]; [|discriminate].
  destruct (fdiv _ _) as [aV|]; cbn [bind]; [|discriminate].
  destruct (renderTriangles _ _) as [calls|]; cbn [bind]; [|discriminate].
  intros H. injection H as <-.
  match goal with
  | |- context [paintAll ?f calls] =>
    destruct (paintAll_shape calls f) as (Hw & Hh & Hl)
  end.
  rewrite Hw, Hh, Hl. cbn [width height buffer].
  rewrite clearCells_length. auto.
Qed.

(** C4, the failing input: a paint request at x = 65537, far right of a
    frame 4 cells wide, is not dropped.  The conversion to [uint16_t] comes
    before the test against the width, and the converted value 1 passes it:
    cell 1 is written.  The same happens to the rows of a triangle
    projected far below the frame, and to a whole frame: [narrowCamera]
    projects the three vertices of [groundTriangle] to (4, 65538),
    (0, 65538) and (8, 65538), and row 2 of the frame 8 by 4 is painted
    ([coarseLibm] has libm's values at the arguments of this run but for
    sqrt 2, whose only use is atan2(0, sqrt 2) = 0). *)
Theorem paintPixelf_huge_not_dropped :
  paintPixelf (blackFrame 4 4) 65537 0 7
  = mkFrame 4 4 [0; 7; 0; 0; 0; 0; 0; 0; 0; 0; 0; 0; 0; 0; 0; 0]
  /\ paintTriangle 4 7 (mkPoint 1 65539) (mkPoint 1 65537) (mkPoint 1 65538)
     = Ok [mkPaint 1 65539 7; mkPaint 1 65538 7]
  /\ paintAll (blackFrame 4 4) [mkPaint 1 65539 7; mkPaint 1 65538 7]
     = mkFrame 4 4 [0; 0; 0; 0; 0; 0; 0; 0; 0; 7; 0; 0; 0; 7; 0; 0]
  /\ Render_Engine_RenderFrame coarseLibm insertionSort
       (mkWorld 0 [groundTriangle 5]) narrowCamera (blackFrame 8 4)
     = Ok (mkFrame 8 4 (repeat 0 16 ++ repeat 5 8 ++ repeat 0 8)).
Proof. split; [|split; [|split]]; vm_compute; reflexivity. Qed.

(** ** The vertical line *)

Lemma forLoop_Forall (P : paint_t -> Prop) (cond : Q -> bool)
    (body : Q -> result (list paint_t * Q)) :
  (forall x ps x', cond x = true -> body x = Ok (ps, x') -> Forall P ps) ->
  forall fuel x calls,
    forLoop fuel cond body x = Ok calls -> Forall P calls.
Proof.
  intros Hbody. induction fuel as [|fuel IH]; intros x calls; simpl.
  - destruct (cond x); [discriminate|].
    intros H. injection H as <-. constructor.
  - destruct (cond x) eqn:E.
    + destruct (body x) as [[ps x']|] eqn:Eb; cbn [bind]; [|discriminate].
      cbn [fst snd].
      destruct (forLoop fuel cond body x') as [rest|] eqn:Er;
        cbn [bind]; [|discriminate].
      intros H. injection H as <-.
      apply Forall_app. split.
      * exact (Hbody x ps x' E Eb).
      * exact (IH x' rest Er).
    + intros H. injection H as <-. constructor.
Qed.

(** Every call of the vertical-line loop is at the column asked for and
    strictly above the lower end: the loop stops at [y > min] and, unlike
    the column loops of the other two shapes, has no last paint at the
    lower end. *)
Lemma paintDown_calls (x topY bottomY : Q) (color : Z)
    (calls : list paint_t) :
  paintDown x topY bottomY color = Ok calls ->
  Forall (fun c => paint_x c = x /\ (bottomY < paint_y c)%Q) calls.
Proof.
  unfold paintDown. apply forLoop_Forall.
  intros y ps y' Hc Hb. injection Hb as <- <-.
  constructor; [|constructor]. cbn [paint_x paint_y]. qprop. auto.
Qed.



(** C2, the failing input: three projected points on the column x = 3 with
    y = 5, 2 and 4, in a frame 8 by 8.  The calls are at y = 5, 4 and 3;
    the cell of row 2, the lower end of the segment, keeps the background.
    Three coinciding points paint nothing at all: the world of one triangle
    shrunk to a point straight ahead of the camera renders as background
    only ([coarseLibm] has libm's values at the arguments of this run:
    cos 0 = 1, sin 0 = 0, atan2(0, 1) = 0, sqrt 1 = 1). *)
Theorem paintLine_misses_lower_end :
  paintTriangle 8 7 (mkPoint 3 5) (mkPoint 3 2) (mkPoint 3 4)
  = Ok [mkPaint 3 5 7; mkPaint 3 4 7; mkPaint 3 3 7]
  /\ map (cell (paintAll (blackFrame 8 8)
                  [mkPaint 3 5 7; mkPaint 3 4 7; mkPaint 3 3 7]))
       [3 + 5 * 8; 3 + 4 * 8; 3 + 3 * 8; 3 + 2 * 8]
     = [7; 7; 7; 0]
  /\ paintTriangle 8 7 (mkPoint 3 2) (mkPoint 3 2) (mkPoint 3 2) = Ok []
  /\ Render_Engine_RenderFrame coarseLibm insertionSort
       (mkWorld 3 [pointTriangle 5]) levelCamera (blackFrame 8 4)
     = Ok (mkFrame 8 4 (repeat 3 32)).
Proof. split; [|split; [|split]]; vm_compute; reflexivity. Qed.

(** ** A triangle ahead of the camera that paints nothing *)



(** * Further properties of the code *)

(** ** The escape sequences *)

Lemma writeTerminalNumber_digits (n : Z) :
  Forall (fun b => 48 <= b <= 57) (writeTerminalNumber n).
Proof.
  unfold writeTerminalNumber, writeTerminalBlock, u8.
  change (chr "0") with 48.
  pose proof (Z.mod_pos_bound (n / 100) 10 eq_refl) as Hh.
  pose proof (Z.mod_pos_bound (n / 10) 10 eq_refl) as Ht.
  pose proof (Z.mod_pos_bound n 10 eq_refl) as Ho.
  rewrite (Z.mod_small ((n / 100) mod 10) 256) by lia.
  rewrite (Z.mod_small ((n / 10) mod 10) 256) by lia.
  rewrite (Z.mod_small (n mod 10) 256) by lia.
  destruct (0 <? (n / 100) mod 10);
    destruct (0 <? (n / 10) mod 10);
    destruct (0 <? n mod 10);
    cbn [orb app];
    repeat (constructor; [rewrite Z.mod_small by lia; lia|]);
    constructor.
Qed.

Lemma writeTerminalNumber_value (n : Z) :
  0 <= n <= 255 ->
  writeTerminalNumber n = (if n =? 0 then [] else decimalDigits n).
Proof.
  intros Hn.
  assert (Hin : In n (map Z.of_nat (seq 0 256))).
  { apply in_map_iff. exists (Z.to_nat n). split; [lia|].
    apply in_seq. lia. }
  pose proof numberAgrees_all as Hall.
  rewrite forallb_forall in Hall.
  specialize (Hall n Hin). simpl in Hall.
  apply bool_decide_eq_true in Hall. exact Hall.
Qed.

(** The cursor sequence is ESC [ row ; column H with the row and the column
    counted from 1 and the row first.  The coordinate 255 is the edge:
    [y + 1] is 256, which is 0 as the [uint8_t] argument of
    [writeTerminalNumber], and no digit is sent for it. *)
Theorem changeTerminalCursorLocation_format (x y : Z) :
  0 <= x <= 255 -> 0 <= y <= 255 ->
  changeTerminalCursorLocation x y
  = [ESC; chr "["]
    ++ (if y =? 255 then [] else decimalDigits (y + 1))
    ++ [chr ";"]
    ++ (if x =? 255 then [] else decimalDigits (x + 1))
    ++ [chr "H"].
Proof.
  intros Hx Hy. unfold changeTerminalCursorLocation, writeTerminalBlock.
  assert (Hnum : forall z, 0 <= z <= 255 ->
            writeTerminalNumber (u8 (z + 1))
            = if z =? 255 then [] else decimalDigits (z + 1)).
  { intros z Hz. destruct (z =? 255) eqn:E.
    - apply Z.eqb_eq in E. subst z. reflexivity.
    - apply Z.eqb_neq in E. unfold u8. rewrite Z.mod_small by lia.
      rewrite writeTerminalNumber_value by lia.
      destruct (z + 1 =? 0) eqn:E0; [|reflexivity].
      apply Z.eqb_eq in E0. lia. }
  rewrite (Hnum x Hx), (Hnum y Hy). reflexivity.
Qed.

Lemma changeTerminalCursorLocation_format_80_24 :
  changeTerminalCursorLocation 79 23
  = [ESC; chr "["; chr "2"; chr "4"; chr ";"; chr "8"; chr "0"; chr "H"].
Proof.
  apply (changeTerminalCursorLocation_format 79 23); lia.
Defined.

(** ** The stream of a frame *)

Lemma changeTerminalColor_no_blank (c : Z) :
  List.filter isBlankByte (changeTerminalColor c) = [].
Proof.
  unfold changeTerminalColor, writeTerminalBlock.
  rewrite !List.filter_app. simpl.
  assert (H : List.filter isBlankByte (writeTerminalNumber c) = []).
  { pose proof (writeTerminalNumber_digits c) as Hd.
    induction Hd as [|b l Hb _ IH]; simpl; [reflexivity|].
    unfold isBlankByte. change (chr " ") with 32.
    unfold CR, LF.
    destruct (b =? 32) eqn:E1; [apply Z.eqb_eq in E1; lia|].
    destruct (b =? 13) eqn:E2; [apply Z.eqb_eq in E2; lia|].
    destruct (b =? 10) eqn:E3; [apply Z.eqb_eq in E3; lia|].
    exact IH. }
  rewrite H. reflexivity.
Qed.

Lemma blankCells_filter (w : Z) (n : nat) :
  forall i, List.filter isBlankByte (blankCells w n i) = blankCells w n i.
Proof.
  induction n as [|n IH]; intros i; simpl; [reflexivity|].
  destruct ((0 <? i) && (i mod w =? 0)); simpl; rewrite IH; reflexivity.
Qed.

Lemma displayCells_filter (frame : framebuffer_t) (n : nat) :
  forall i lastColor,
    0 <= i -> i + Z.of_nat n <= 65535 ->
    List.filter isBlankByte (displayCells frame n i lastColor)
    = blankCells (width frame) n i.
Proof.
  induction n as [|n IH]; intros i lastColor Hi Hn.
  - reflexivity.
  - cbn [displayCells blankCells].
    replace (u16 (i + 1)) with (i + 1)
      by (unfold u16; rewrite Z.mod_small; lia).
    destruct (negb (lastColor =? cell frame i));
      rewrite !List.filter_app, ?changeTerminalColor_no_blank, IH by lia;
      destruct ((0 <? i) && (i mod width frame =? 0)); reflexivity.
Qed.

(** Whatever the colours of the cells, the stream after the cursor sequence
    is, colour changes aside, the same: the bytes that are blocks or row
    separators are those of [blankCells], one block per cell and CR LF
    between the rows.  A frame with no cell sends the cursor sequence only. *)
Theorem displayFrame_skeleton (frame : framebuffer_t) :
  0 <= width frame <= 255 -> 0 <= height frame <= 255 ->
  Render_Engine_DisplayFrame frame
  = [ESC; chr "["; chr "1"; chr ";"; chr "1"; chr "H"]
    ++ displayCells frame (Z.to_nat (width frame * height frame)) 0 0
  /\ List.filter isBlankByte
       (displayCells frame (Z.to_nat (width frame * height frame)) 0 0)
     = blankCells (width frame) (Z.to_nat (width frame * height frame)) 0
  /\ (width frame * height frame = 0 ->
      Render_Engine_DisplayFrame frame
      = [ESC; chr "["; chr "1"; chr ";"; chr "1"; chr "H"]).
Proof.
  intros Hw Hh. split; [reflexivity|]. split.
  - apply displayCells_filter; [lia | nia].
  - intros H0. unfold Render_Engine_DisplayFrame. rewrite H0. reflexivity.
Qed.

Lemma displayFrame_skeleton_2_2 :
  List.filter isBlankByte
    (displayCells (mkFrame 2 2 [0; 3; 3; 0]) 4 0 0)
  = [chr " "; chr " "; CR; LF; chr " "; chr " "].
Proof.
  assert (Hw : 0 <= width (mkFrame 2 2 [0; 3; 3; 0]) <= 255) by (simpl; lia).
  assert (Hh : 0 <= height (mkFrame 2 2 [0; 3; 3; 0]) <= 255) by (simpl; lia).
  destruct (displayFrame_skeleton (mkFrame 2 2 [0; 3; 3; 0]) Hw Hh)
    as (_ & H & _).
  exact H.
Defined.

(** A run of cells of the colour last selected sends no colour change. *)
Lemma displayCells_run (frame : framebuffer_t) (c : Z) (m n : nat) :
  forall i,
    0 <= i -> i + Z.of_nat n <= 65535 ->
    (forall j, i <= j < i + Z.of_nat n -> cell frame j = c) ->
    displayCells frame (n + m) i c
    = blankCells (width frame) n i
      ++ displayCells frame m (i + Z.of_nat n) c.
Proof.
  induction n as [|n IH]; intros i Hi Hn Hc.
  - simpl. f_equal. lia.
  - cbn [Nat.add displayCells blankCells].
    rewrite (Hc i) by lia. rewrite Z.eqb_refl. cbn [negb].
    replace (u16 (i + 1)) with (i + 1)
      by (unfold u16; rewrite Z.mod_small; lia).
    rewrite IH; [| lia | lia | intros j Hj; apply Hc; lia].
    replace (i + 1 + Z.of_nat n) with (i + Z.of_nat (S n)) by lia.
    destruct ((0 <? i) && (i mod width frame =? 0)); simpl; reflexivity.
Qed.

(** For a frame with at least one cell whose cells all have one colour
    other than 0, the colour is selected once, before the first block, and
    nothing but blocks and row separators follows. *)
Theorem displayFrame_one_colour (frame : framebuffer_t) (c : Z) :
  0 < width frame <= 255 -> 0 < height frame <= 255 ->
  c <> 0 ->
  (forall j, 0 <= j < width frame * height frame -> cell frame j = c) ->
  Render_Engine_DisplayFrame frame
  = changeTerminalCursorLocation 0 0
    ++ changeTerminalColor c
    ++ blankCells (width frame) (Z.to_nat (width frame * height frame)) 0.
Proof.
  intros Hw Hh Hc Hall. unfold Render_Engine_DisplayFrame. f_equal.
  assert (Hn : Z.to_nat (width frame * height frame)
               = S (Z.to_nat (width frame * height frame) - 1)) by nia.
  rewrite Hn. cbn [displayCells blankCells].
  rewrite (Hall 0) by nia.
  replace (0 =? c) with false by (symmetry; apply Z.eqb_neq; lia).
  cbn [negb andb Z.ltb Z.compare app].
  change (u16 (0 + 1)) with 1. change (0 + 1) with 1.
  replace (Z.to_nat (width frame * height frame) - 1)%nat
    with ((Z.to_nat (width frame * height frame) - 1) + 0)%nat at 1 by lia.
  rewrite displayCells_run; [| lia | nia | intros j Hj; apply Hall; nia].
  cbn [displayCells]. rewrite app_nil_r. reflexivity.
Qed.

Lemma plainFrame_2_2_cells (j : Z) :
  0 <= j < width (plainFrame 2 2 5) * height (plainFrame 2 2 5) ->
  cell (plainFrame 2 2 5) j = 5.
Proof.
  simpl. intros Hj.
  assert (Hc : j = 0 \/ j = 1 \/ j = 2 \/ j = 3) by lia.
  destruct Hc as [->|[->|[->| ->]]]; reflexivity.
Qed.

Lemma displayFrame_one_colour_2_2 :
  Render_Engine_DisplayFrame (plainFrame 2 2 5)
  = changeTerminalCursorLocation 0 0
    ++ [ESC; chr "["; chr "5"; chr "m"]
    ++ [chr " "; chr " "; CR; LF; chr " "; chr " "].
Proof.
  assert (Hw : 0 < width (plainFrame 2 2 5) <= 255) by (simpl; lia).
  assert (Hh : 0 < height (plainFrame 2 2 5) <= 255) by (simpl; lia).
  assert (Hc : 5 <> 0) by lia.
  exact (displayFrame_one_colour (plainFrame 2 2 5) 5 Hw Hh Hc
           plainFrame_2_2_cells).
Defined.

(** ** The frame after a render *)

Lemma clearCells_fill (c : Z) (n : nat) :
  forall (i : Z) (pre buf : list Z),
    Z.of_nat (length pre) = i -> length buf = n ->
    i + Z.of_nat n <= 65535 ->
    clearCells n i c (pre ++ buf) = pre ++ repeat c n.
Proof.
  induction n as [|n IH]; intros i pre buf Hpre Hbuf Hi.
  - destruct buf; [reflexivity | discriminate].
  - destruct buf as [|b buf]; [discriminate|].
    cbn [clearCells repeat].
    replace (Z.to_nat i) with (length pre + 0)%nat by lia.
    rewrite insert_app_r. cbn [insert list_insert].
    replace (u16 (i + 1)) with (i + 1)
      by (unfold u16; rewrite Z.mod_small; lia).
    change (pre ++ c :: buf) with (pre ++ [c] ++ buf).
    rewrite app_assoc.
    rewrite (IH (i + 1) (pre ++ [c]) buf).
    + rewrite <- app_assoc. reflexivity.
    + rewrite length_app. simpl. lia.
    + simpl in Hbuf. lia.
    + lia.
Qed.

(** With a buffer of width * height cells the clearing loop leaves a frame
    of the background colour, whatever the buffer held. *)
Lemma RenderFrame_cleared (M : libm)
    (qsort : (triangle_t -> triangle_t -> Z) ->
             list triangle_t -> list triangle_t)
    (world : world_t) (camera : camera_t) (frame : framebuffer_t) :
  0 <= width frame <= 255 -> 0 <= height frame <= 255 ->
  length (buffer frame) = Z.to_nat (width frame * height frame) ->
  Render_Engine_RenderFrame M qsort world camera frame
  = do aH <- fdiv (fovHorizontal camera * M_PI)
               (inject_Z (width frame) * 180);
    do aV <- fdiv (fovVertical camera * M_PI)
               (inject_Z (height frame) * 180);
    do calls <-
      renderTriangles
        (renderTriangle M camera (width frame) aH aV
           (u8 (width frame / 2)) (u8 (height frame / 2)))
        (qsort (compareTriangles (location camera)) (triangles world));
    Ok (paintAll
          (plainFrame (width frame) (height frame) (backgroundColor world))
          calls).
Proof.
  intros Hw Hh Hlen. unfold Render_Engine_RenderFrame, plainFrame.
  assert (Hu : u16 (width frame * height frame)
               = width frame * height frame).
  { unfold u16. apply Z.mod_small. nia. }
  rewrite Hu.
  assert (Hle : 0 + Z.of_nat (Z.to_nat (width frame * height frame))
                <= 65535) by nia.
  pose proof (clearCells_fill (backgroundColor world) _ 0 [] (buffer frame)
                eq_refl Hlen Hle) as Hc.
  cbn [app] in Hc. rewrite Hc. reflexivity.
Qed.

Lemma renderTriangles_none (step : triangle_t -> result (list paint_t))
    (ts : list triangle_t) :
  Forall (fun t => step t = Ok []) ts -> renderTriangles step ts = Ok [].
Proof.
  induction 1 as [|t ts Ht _ IH]; simpl; [reflexivity|].
  rewrite Ht, IH. reflexivity.
Qed.

(** Background fill: when the world has no triangle, or none that passes
    the test of lines 86-88, the rendered frame is the background colour in
    every cell. *)
Theorem RenderFrame_background (M : libm)
    (qsort : (triangle_t -> triangle_t -> Z) ->
             list triangle_t -> list triangle_t)
    (world : world_t) (camera : camera_t) (frame : framebuffer_t) :
  qsort_contract qsort ->
  0 < width frame <= 255 -> 0 < height frame <= 255 ->
  length (buffer frame) = Z.to_nat (width frame * height frame) ->
  ~ (fovHorizontal camera == 0)%Q -> ~ (fovVertical camera == 0)%Q ->
  Forall (fun t => triangleBehind M camera t = true) (triangles world) ->
  Render_Engine_RenderFrame M qsort world camera frame
  = Ok (plainFrame (width frame) (height frame) (backgroundColor world)).
Proof.
  intros Hq Hw Hh Hlen HfH HfV Hall.
  rewrite RenderFrame_cleared by (try assumption; lia).
  rewrite (fdiv_ok _ _ (inject_Z_nonzero (width frame) ltac:(lia))).
  cbn [bind].
  rewrite (fdiv_ok _ _ (inject_Z_nonzero (height frame) ltac:(lia))).
  cbn [bind].
  rewrite renderTriangles_none; [reflexivity|].
  destruct (Hq (compareTriangles (location camera)) (triangles world)
              (compareTriangles_consistent (location camera)))
    as [Hperm _].
  eapply Permutation_Forall; [exact Hperm|].
  eapply Forall_impl; [exact Hall|].
  intros t Ht. unfold renderTriangle.
  unfold triangleBehind in Ht. rewrite Ht. reflexivity.
Qed.

Lemma fov_90_nonzero : ~ (90 == 0)%Q.
Proof. intros E. discriminate E. Qed.

Lemma fov_60_nonzero : ~ (60 == 0)%Q.
Proof. intros E. discriminate E. Qed.

Lemma RenderFrame_background_behind :
  Render_Engine_RenderFrame coarseLibm insertionSort
    (mkWorld 3 [flatTriangle (-1) 5]) levelCamera (blackFrame 8 4)
  = Ok (plainFrame 8 4 3).
Proof.
  apply (RenderFrame_background coarseLibm insertionSort
           (mkWorld 3 [flatTriangle (-1) 5]) levelCamera (blackFrame 8 4)).
  - apply insertionSort_contract.
  - simpl. lia.
  - simpl. lia.
  - reflexivity.
  - exact fov_90_nonzero.
  - exact fov_60_nonzero.
  - constructor; [vm_compute; reflexivity | constructor].
Defined.

(** A render repaints the whole frame: two frames of the same size give
    the same result whatever their buffers held, and rendering the result
    once more returns it unchanged. *)
Theorem RenderFrame_repaints (M : libm)
    (qsort : (triangle_t -> triangle_t -> Z) ->
             list triangle_t -> list triangle_t)
    (world : world_t) (camera : camera_t) (f1 f2 : framebuffer_t) :
  0 <= width f1 <= 255 -> 0 <= height f1 <= 255 ->
  width f2 = width f1 -> height f2 = height f1 ->
  length (buffer f1) = Z.to_nat (width f1 * height f1) ->
  length (buffer f2) = Z.to_nat (width f1 * height f1) ->
  Render_Engine_RenderFrame M qsort world camera f1
  = Render_Engine_RenderFrame M qsort world camera f2
  /\ (forall f',
        Render_Engine_RenderFrame M qsort world camera f1 = Ok f' ->
        Render_Engine_RenderFrame M qsort world camera f' = Ok f').
Proof.
  intros Hw Hh Hw2 Hh2 Hl1 Hl2.
  assert (Hsame : forall f,
            width f = width f1 -> height f = height f1 ->
            length (buffer f) = Z.to_nat (width f1 * height f1) ->
            Render_Engine_RenderFrame M qsort world camera f
            = Render_Engine_RenderFrame M qsort world camera f1).
  { intros f Hfw Hfh Hfl.
    rewrite (RenderFrame_cleared M qsort world camera f)
      by (rewrite ?Hfw, ?Hfh; assumption).
    rewrite (RenderFrame_cleared M qsort world camera f1) by assumption.
    rewrite Hfw, Hfh. reflexivity. }
  split.
  - symmetry. apply Hsame; assumption.
  - intros f' Hf'.
    destruct (RenderFrame_shape M qsort world camera f1 f' Hf')
      as (Hw' & Hh' & Hl').
    rewrite Hsame; [exact Hf' | exact Hw' | exact Hh' | ].
    rewrite Hl'. exact Hl1.
Qed.

Lemma RenderFrame_repaints_8_4 :
  Render_Engine_RenderFrame coarseLibm insertionSort
    (mkWorld 0 [groundTriangle 5]) levelCamera (blackFrame 8 4)
  = Render_Engine_RenderFrame coarseLibm insertionSort
      (mkWorld 0 [groundTriangle 5]) levelCamera (plainFrame 8 4 9).
Proof.
  assert (Hw : 0 <= width (blackFrame 8 4) <= 255) by (simpl; lia).
  assert (Hh : 0 <= height (blackFrame 8 4) <= 255) by (simpl; lia).
  destruct (RenderFrame_repaints coarseLibm insertionSort
              (mkWorld 0 [groundTriangle 5]) levelCamera
              (blackFrame 8 4) (plainFrame 8 4 9)
              Hw Hh eq_refl eq_refl eq_refl eq_refl) as [Hsame _].
  exact Hsame.
Defined.

(** With a frame that has cells and fields of view that are not zero, a
    render runs to its end for every world, camera, libm and sorting
    function, and the frame it returns has the width, the height and the
    buffer length of the frame it was given. *)
Theorem RenderFrame_completes (M : libm)
    (qsort : (triangle_t -> triangle_t -> Z) ->
             list triangle_t -> list triangle_t)
    (world : world_t) (camera : camera_t) (frame : framebuffer_t) :
  width frame <> 0 -> height frame <> 0 ->
  ~ (fovHorizontal camera == 0)%Q -> ~ (fovVertical camera == 0)%Q ->
  exists frame',
    Render_Engine_RenderFrame M qsort world camera frame = Ok frame'
    /\ width frame' = width frame
    /\ height frame' = height frame
    /\ length (buffer frame') = length (buffer frame).
Proof.
  intros Hw Hh HfH HfV.
  destruct (RenderFrame_total M qsort world camera frame Hw Hh HfH HfV)
    as [frame' Hr].
  exists frame'. split; [exact Hr|].
  exact (RenderFrame_shape M qsort world camera frame frame' Hr).
Qed.

Lemma RenderFrame_completes_three :
  exists frame',
    Render_Engine_RenderFrame coarseLibm insertionSort
      (mkWorld 0 threeTriangles) levelCamera (blackFrame 8 4) = Ok frame'
    /\ width frame' = 8 /\ height frame' = 4
    /\ length (buffer frame') = 32%nat.
Proof.
  apply (RenderFrame_completes coarseLibm insertionSort
           (mkWorld 0 threeTriangles) levelCamera (blackFrame 8 4)).
  - simpl. lia.
  - simpl. lia.
  - exact fov_90_nonzero.
  - exact fov_60_nonzero.
Defined.

(** ** Painting a pixel *)

(** [paintPixel] on a pixel of the frame: the pixel reads back the colour,
    every other pixel of the frame reads what it read before, and the
    frame keeps its size. *)
Theorem paintPixel_read_back (frame : framebuffer_t) (x y color : Z)
    (x' y' : Z) :
  length (buffer frame) = Z.to_nat (width frame * height frame) ->
  0 <= x < width frame -> 0 <= y < height frame ->
  0 <= x' < width frame -> 0 <= y' < height frame ->
  pixel (paintPixel frame x y color) x y = Some color
  /\ ((x', y') <> (x, y) ->
      pixel (paintPixel frame x y color) x' y' = pixel frame x' y')
  /\ width (paintPixel frame x y color) = width frame
  /\ height (paintPixel frame x y color) = height frame
  /\ length (buffer (paintPixel frame x y color)) = length (buffer frame).
Proof.
  intros Hlen Hx Hy Hx' Hy'.
  unfold paintPixel, pixel.
  replace (x <? width frame) with true by (symmetry; apply Z.ltb_lt; lia).
  replace (y <? height frame) with true by (symmetry; apply Z.ltb_lt; lia).
  cbn [andb width height buffer].
  split; [|split; [|split; [|split]]]; try reflexivity.
  - apply list_lookup_insert_eq. rewrite Hlen. nia.
  - intros Hne. apply list_lookup_insert_ne.
    intros Heq. apply Hne.
    assert (Hz : x + y * width frame = x' + y' * width frame) by nia.
    assert (Hyy : y = y') by nia.
    subst y'. f_equal. lia.
  - apply length_insert.
Qed.

Lemma paintPixel_read_back_4_4 :
  pixel (paintPixel (blackFrame 4 4) 1 2 7) 1 2 = Some 7
  /\ ((3, 2) <> (1, 2) ->
      pixel (paintPixel (blackFrame 4 4) 1 2 7) 3 2
      = pixel (blackFrame 4 4) 3 2)
  /\ width (paintPixel (blackFrame 4 4) 1 2 7) = 4
  /\ height (paintPixel (blackFrame 4 4) 1 2 7) = 4
  /\ length (buffer (paintPixel (blackFrame 4 4) 1 2 7)) = 16%nat.
Proof.
  apply (paintPixel_read_back (blackFrame 4 4) 1 2 7 3 2);
    simpl; try lia; reflexivity.
Defined.

(** [paintPixelf] drops a request with a negative coordinate and otherwise,
    for coordinates below 65536, paints the pixel whose column and row are
    the coordinates with their fraction discarded. *)
Theorem paintPixelf_truncates (frame : framebuffer_t) (x y : Q) (color : Z) :
  ((x < 0)%Q \/ (y < 0)%Q -> paintPixelf frame x y color = frame)
  /\ ((0 <= x)%Q -> (0 <= y)%Q -> Qfloor x < 65536 -> Qfloor y < 65536 ->
      paintPixelf frame x y color
      = paintPixel frame (Qfloor x) (Qfloor y) color).
Proof.
  split.
  - intros H. apply paintPixelf_dropped. tauto.
  - intros Hx Hy Hx16 Hy16. unfold paintPixelf.
    replace (x >=? 0)%Q with true
      by (symmetry; apply Qle_bool_iff; exact Hx).
    replace (y >=? 0)%Q with true
      by (symmetry; apply Qle_bool_iff; exact Hy).
    cbn [andb]. unfold to_uint16, u16.
    rewrite !Qtrunc_floor by assumption.
    assert (Hfx : 0 <= Qfloor x).
    { replace 0 with (Qfloor 0) by reflexivity.
      apply Qfloor_resp_le. exact Hx. }
    assert (Hfy : 0 <= Qfloor y).
    { replace 0 with (Qfloor 0) by reflexivity.
      apply Qfloor_resp_le. exact Hy. }
    rewrite !Z.mod_small by lia. reflexivity.
Qed.

(** ** The columns and the colour of a triangle's paint calls *)

Lemma forLoop_inv (I : Q -> Prop) (P : paint_t -> Prop) (cond : Q -> bool)
    (body : Q -> result (list paint_t * Q)) :
  (forall x ps x',
     I x -> cond x = true -> body x = Ok (ps, x') ->
     Forall P ps /\ I x') ->
  forall fuel x calls,
    I x -> forLoop fuel cond body x = Ok calls -> Forall P calls.
Proof.
  intros Hbody. induction fuel as [|fuel IH]; intros x calls Hx; simpl.
  - destruct (cond x); [discriminate|].
    intros H. injection H as <-. constructor.
  - destruct (cond x) eqn:E.
    + destruct (body x) as [[ps x']|] eqn:Eb; cbn [bind]; [|discriminate].
      cbn [fst snd].
      destruct (forLoop fuel cond body x') as [rest|] eqn:Er;
        cbn [bind]; [|discriminate].
      intros H. injection H as <-.
      destruct (Hbody x ps x' Hx E Eb) as [Hps Hx'].
      apply Forall_app. split; [exact Hps|].
      exact (IH x' rest Hx' Er).
    + intros H. injection H as <-. constructor.
Qed.

Lemma paintDown_at (x topY bottomY : Q) (color : Z) (calls : list paint_t) :
  paintDown x topY bottomY color = Ok calls ->
  Forall (fun c => paint_x c = x /\ paint_color c = color) calls.
Proof.
  unfold paintDown. apply forLoop_Forall.
  intros y ps y' _ Hb. injection Hb as <- <-.
  constructor; [|constructor]. auto.
Qed.

Lemma paintColumn_at (x topY bottomY : Q) (color : Z)
    (calls : list paint_t) :
  paintColumn x topY bottomY color = Ok calls ->
  Forall (fun c => paint_x c = x /\ paint_color c = color) calls.
Proof.
  unfold paintColumn.
  destruct (paintDown x topY bottomY color) as [col|] eqn:E;
    cbn [bind]; [|discriminate].
  intros H. injection H as <-.
  apply Forall_app. split; [exact (paintDown_at _ _ _ _ _ E)|].
  constructor; [|constructor]. auto.
Qed.

Lemma at_within (lo hi x : Q) (color : Z) (calls : list paint_t) :
  (lo <= x <= hi)%Q ->
  Forall (fun c => paint_x c = x /\ paint_color c = color) calls ->
  Forall (withinColumns lo hi color) calls.
Proof.
  intros Hx H. eapply Forall_impl; [exact H|].
  intros c [Hcx Hcc]. unfold withinColumns. rewrite Hcx.
  split; [exact Hx | exact Hcc].
Qed.

Lemma paintLine_within (w color : Z) (p1 p2 p3 center : point_t)
    (lo hi : Q) (calls : list paint_t) :
  (lo <= pt_x center <= hi)%Q ->
  paintLine w color p1 p2 p3 center = Ok calls ->
  Forall (withinColumns lo hi color) calls.
Proof.
  intros Hc. unfold paintLine.
  destruct ((pt_x center <? 0)%Q || (pt_x center >=? inject_Z w)%Q).
  - intros H. injection H as <-. constructor.
  - intros H. apply (at_within lo hi (pt_x center)); [exact Hc|].
    exact (paintDown_at _ _ _ _ _ H).
Qed.

Lemma edgeColumn_at (color : Z) (u l : Q) (side : point_t) (x x' : Q)
    (ps : list paint_t) :
  edgeColumn color u l side x = Ok (ps, x') ->
  Forall (fun c => paint_x c = x /\ paint_color c = color) ps
  /\ x' = snap x.
Proof.
  unfold edgeColumn.
  destruct (paintColumn x _ _ color) as [col|] eqn:E;
    cbn [bind]; [|discriminate].
  intros H. injection H as <- <-.
  split; [exact (paintColumn_at _ _ _ _ _ E) | reflexivity].
Qed.

Lemma edgeSweep_within (color : Z) (top bottom side : point_t) (dir : bool)
    (lo hi : Q) (calls : list paint_t) :
  (lo <= pt_x top <= hi)%Q -> (lo <= pt_x side <= hi)%Q ->
  edgeSweep color top bottom side dir = Ok calls ->
  Forall (withinColumns lo hi color) calls.
Proof.
  intros Ht Hs. unfold edgeSweep.
  destruct (fdiv (pt_y top - pt_y side) _) as [u|]; cbn [bind];
    [|discriminate].
  destruct (fdiv (pt_y bottom - pt_y side) _) as [l|]; cbn [bind];
    [|discriminate].
  destruct dir.
  - destruct (forLoop _ _ _ _) as [cols|] eqn:E; cbn [bind]; [|discriminate].
    intros H. injection H as <-.
    apply Forall_app. split.
    + refine (forLoop_inv (fun x => (x <= pt_x top)%Q) _ _ _ _ _ _ _ _ E);
        [|lra].
      intros x ps x' Hx Hc Hb. qprop.
      destruct (edgeColumn color u l side x) as [[col xs]|] eqn:Ec;
        cbn [bind] in Hb; [|discriminate].
      injection Hb as <- <-. cbn [fst snd].
      destruct (edgeColumn_at _ _ _ _ _ _ _ Ec) as [Hat ->].
      pose proof (snap_bounds x). split; [|lra].
      apply (at_within lo hi x); [lra | exact Hat].
    + destruct (pt_x side - fabs (pt_x side) >? 1 # 2)%Q;
        [|constructor].
      constructor; [|constructor]. split; [exact Hs | reflexivity].
  - destruct (forLoop _ _ _ _) as [cols|] eqn:E; cbn [bind]; [|discriminate].
    intros H. injection H as <-.
    apply Forall_app. split.
    + refine (forLoop_inv (fun x => (pt_x top <= x)%Q) _ _ _ _ _ _ _ _ E);
        [|lra].
      intros x ps x' Hx Hc Hb. qprop.
      destruct (edgeColumn color u l side x) as [[col xs]|] eqn:Ec;
        cbn [bind] in Hb; [|discriminate].
      injection Hb as <- <-. cbn [fst snd].
      destruct (edgeColumn_at _ _ _ _ _ _ _ Ec) as [Hat ->].
      pose proof (snap_bounds x). split; [|lra].
      apply (at_within lo hi x); [lra | exact Hat].
    + destruct (pt_x side - floor (pt_x side) <? 1 # 2)%Q;
        [|constructor].
      constructor; [|constructor]. split; [exact Hs | reflexivity].
Qed.

Lemma paintVerticalEdge_within (color : Z) (left center right : point_t)
    (lo hi : Q) (calls : list paint_t) :
  (lo <= pt_x left <= hi)%Q -> (lo <= pt_x center <= hi)%Q ->
  (lo <= pt_x right <= hi)%Q ->
  paintVerticalEdge color left center right = Ok calls ->
  Forall (withinColumns lo hi color) calls.
Proof.
  intros Hl Hc Hr. unfold paintVerticalEdge.
  destruct (pt_x left ==? pt_x center)%Q;
    [destruct (pt_y left >? pt_y center)%Q
    |destruct (pt_y right >? pt_y center)%Q];
    apply edgeSweep_within; assumption.
Qed.

Lemma sweepColumn_at (w color : Z) (a b : Q) (o : point_t) (x x' : Q)
    (ps : list paint_t) :
  sweepColumn w color a b o x = Ok (ps, x') ->
  Forall (fun c => paint_x c = x /\ paint_color c = color) ps
  /\ (x <= x')%Q.
Proof.
  unfold sweepColumn.
  destruct ((x <? 0)%Q || (x >=? inject_Z w)%Q).
  - intros H. injection H as <- <-. split; [constructor | lra].
  - destruct (paintColumn x _ _ color) as [col|] eqn:E;
      cbn [bind]; [|discriminate].
    intros H. injection H as <- <-.
    split; [exact (paintColumn_at _ _ _ _ _ E)|].
    pose proof (snap_bounds x). lra.
Qed.

Lemma sweep_within (w color : Z) (a b : Q) (o : point_t) (from to : Q)
    (fuel : nat) (lo hi : Q) (calls : list paint_t) :
  (lo <= from)%Q -> (to <= hi)%Q ->
  forLoop fuel (fun x => x <? to)%Q (sweepColumn w color a b o) from
  = Ok calls ->
  Forall (withinColumns lo hi color) calls.
Proof.
  intros Hfrom Hto E.
  refine (forLoop_inv (fun x => (from <= x)%Q) _ _ _ _ _ _ _ _ E); [|lra].
  intros x ps x' Hx Hc Hb. qprop.
  destruct (sweepColumn_at _ _ _ _ _ _ _ _ Hb) as [Hat Hx'].
  split; [|lra].
  apply (at_within lo hi x); [lra | exact Hat].
Qed.

Lemma paintGeneral_within (w color : Z) (left center right : point_t)
    (lo hi : Q) (calls : list paint_t) :
  (lo <= pt_x left <= hi)%Q -> (lo <= pt_x center <= hi)%Q ->
  (lo <= pt_x right <= hi)%Q ->
  paintGeneral w color left center right = Ok calls ->
  Forall (withinColumns lo hi color) calls.
Proof.
  intros Hl Hc Hr. unfold paintGeneral.
  destruct (fdiv (pt_y center - pt_y left) _) as [s1|]; cbn [bind];
    [|discriminate].
  destruct (fdiv (pt_y right - pt_y left) _) as [s2|]; cbn [bind];
    [|discriminate].
  destruct (fdiv (pt_y right - pt_y center) _) as [s3|]; cbn [bind];
    [|discriminate].
  destruct (forLoop _ (fun x => x <? pt_x center)%Q _ _) as [leftCols|] eqn:E1;
    cbn [bind]; [|discriminate].
  destruct (forLoop _ (fun x => x <? pt_x right)%Q _ _) as [rightCols|] eqn:E2;
    cbn [bind]; [|discriminate].
  intros H. injection H as <-.
  apply Forall_app. split; [|apply Forall_app; split].
  - refine (sweep_within _ _ _ _ _ _ _ _ lo hi _ _ _ E1); lra.
  - refine (sweep_within _ _ _ _ _ _ _ _ lo hi _ _ _ E2); lra.
  - destruct ((pt_x right - floor (pt_x right) <? 1 # 2)%Q
              && ((pt_x right >=? 0)%Q && (pt_x right <? inject_Z w)%Q));
      [|constructor].
    constructor; [|constructor]. split; [exact Hr | reflexivity].
Qed.

Lemma paintTriangle_within (w color : Z) (p1 p2 p3 : point_t) (lo hi : Q)
    (calls : list paint_t) :
  (lo <= pt_x p1 <= hi)%Q -> (lo <= pt_x p2 <= hi)%Q ->
  (lo <= pt_x p3 <= hi)%Q ->
  paintTriangle w color p1 p2 p3 = Ok calls ->
  Forall (withinColumns lo hi color) calls.
Proof.
  intros H1 H2 H3. unfold paintTriangle.
  destruct (selection_ordered p1 p2 p3)
    as (center & -> & _ & Hperm & _ & _).
  cbn [bind].
  set (left := fst (selectLeft p1 p2 p3)) in *.
  set (right := fst (selectRight (snd (selectLeft p1 p2 p3)) p1 p2 p3)) in *.
  assert (Hin : forall p, In p [left; center; right] ->
                  (lo <= pt_x p <= hi)%Q).
  { intros p Hp. apply (Permutation_in _ Hperm) in Hp.
    destruct Hp as [<-|[<-|[<-|[]]]]; assumption. }
  assert (Hl : (lo <= pt_x left <= hi)%Q) by (apply Hin; simpl; auto).
  assert (Hc : (lo <= pt_x center <= hi)%Q) by (apply Hin; simpl; auto).
  assert (Hr : (lo <= pt_x right <= hi)%Q) by (apply Hin; simpl; auto).
  unfold paintShape.
  destruct ((pt_x left ==? pt_x center)%Q && (pt_x center ==? pt_x right)%Q).
  - apply paintLine_within. exact Hc.
  - destruct ((pt_x left ==? pt_x center)%Q || (pt_x center ==? pt_x right)%Q).
    + apply paintVerticalEdge_within; assumption.
    + apply paintGeneral_within; assumption.
Qed.

(** Every paint call of a triangle carries the triangle's colour and lies
    in a column between the least and the greatest of the three projected
    x: the sampling correction never moves a column outside the triangle's
    extent. *)
Theorem paintTriangle_within_extent (w color : Z) (p1 p2 p3 : point_t)
    (lo hi : Q) (calls : list paint_t) :
  (lo <= pt_x p1 <= hi)%Q -> (lo <= pt_x p2 <= hi)%Q ->
  (lo <= pt_x p3 <= hi)%Q ->
  paintTriangle w color p1 p2 p3 = Ok calls ->
  Forall (withinColumns lo hi color) calls.
Proof. exact (paintTriangle_within w color p1 p2 p3 lo hi calls). Qed.

Lemma paintTriangle_within_extent_8 :
  exists calls,
    paintTriangle 8 7 (mkPoint 1 5) (mkPoint 3 2) (mkPoint 6 4) = Ok calls
    /\ Forall (withinColumns 1 6 7) calls.
Proof.
  destruct (paintTriangle_ok 8 7 (mkPoint 1 5) (mkPoint 3 2) (mkPoint 6 4))
    as [calls Hcalls].
  exists calls. split; [exact Hcalls|].
  apply (paintTriangle_within_extent 8 7
           (mkPoint 1 5) (mkPoint 3 2) (mkPoint 6 4) 1 6 calls);
    [simpl; lra | simpl; lra | simpl; lra | exact Hcalls].
Defined.

Lemma bounds3 (a b c : Q) :
  exists lo hi,
    (lo <= a <= hi)%Q /\ (lo <= b <= hi)%Q /\ (lo <= c <= hi)%Q
    /\ ((a < 0)%Q -> (b < 0)%Q -> (c < 0)%Q -> (hi < 0)%Q).
Proof.
  assert (Hhi : exists hi, (a <= hi)%Q /\ (b <= hi)%Q /\ (c <= hi)%Q
                  /\ ((a < 0)%Q -> (b < 0)%Q -> (c < 0)%Q -> (hi < 0)%Q)).
  { destruct (Qlt_le_dec a b); destruct (Qlt_le_dec b c);
      destruct (Qlt_le_dec a c);
      first [ exists a; repeat split; (lra || (intros; lra))
            | exists b; repeat split; (lra || (intros; lra))
            | exists c; repeat split; (lra || (intros; lra)) ]. }
  assert (Hlo : exists lo, (lo <= a)%Q /\ (lo <= b)%Q /\ (lo <= c)%Q).
  { destruct (Qlt_le_dec a b); destruct (Qlt_le_dec b c);
      destruct (Qlt_le_dec a c);
      first [ exists a; repeat split; lra
            | exists b; repeat split; lra
            | exists c; repeat split; lra ]. }
  destruct Hhi as (hi & Ha & Hb & Hc & Hneg).
  destruct Hlo as (lo & La & Lb & Lc).
  exists lo, hi. repeat split; assumption.
Qed.

Lemma paintAll_negative (calls : list paint_t) :
  forall frame,
    Forall (fun c => (paint_x c < 0)%Q) calls ->
    paintAll frame calls = frame.
Proof.
  induction calls as [|c calls IH]; intros frame Hall; [reflexivity|].
  inversion Hall as [|c' l' Hc Hrest]; subst.
  unfold paintAll. simpl.
  rewrite paintPixelf_dropped by (left; exact Hc).
  apply IH. exact Hrest.
Qed.

(** A triangle whose three projected points are left of the frame (x < 0)
    changes no cell, whichever of the three shapes it has. *)
Theorem paintTriangle_left_of_frame (frame : framebuffer_t) (w color : Z)
    (p1 p2 p3 : point_t) (calls : list paint_t) :
  (pt_x p1 < 0)%Q -> (pt_x p2 < 0)%Q -> (pt_x p3 < 0)%Q ->
  paintTriangle w color p1 p2 p3 = Ok calls ->
  paintAll frame calls = frame.
Proof.
  intros H1 H2 H3 Hcalls.
  destruct (bounds3 (pt_x p1) (pt_x p2) (pt_x p3))
    as (lo & hi & B1 & B2 & B3 & Hneg).
  apply paintAll_negative.
  eapply Forall_impl;
    [exact (paintTriangle_within w color p1 p2 p3 lo hi calls
              B1 B2 B3 Hcalls)|].
  intros c [[_ Hc] _]. specialize (Hneg H1 H2 H3). lra.
Qed.

Lemma paintTriangle_left_of_frame_8 :
  exists calls,
    paintTriangle 8 7 (mkPoint (-6) 5) (mkPoint (-6) 2) (mkPoint (-3) 4)
    = Ok calls
    /\ calls <> []
    /\ paintAll (blackFrame 8 8) calls = blackFrame 8 8.
Proof.
  destruct (paintTriangle_ok 8 7
              (mkPoint (-6) 5) (mkPoint (-6) 2) (mkPoint (-3) 4))
    as [calls Hcalls].
  exists calls. split; [exact Hcalls|]. split.
  - intros ->. vm_compute in Hcalls. discriminate Hcalls.
  - apply (paintTriangle_left_of_frame (blackFrame 8 8) 8 7
             (mkPoint (-6) 5) (mkPoint (-6) 2) (mkPoint (-3) 4) calls);
      [simpl; lra | simpl; lra | simpl; lra | exact Hcalls].
Defined.

(** ** The colours of a rendered frame *)

Lemma renderTriangle_colour (M : libm) (camera : camera_t) (w : Z)
    (aH aV : Q) (hw hh : Z) (t : triangle_t) (calls : list paint_t) :
  renderTriangle M camera w aH aV hw hh t = Ok calls ->
  Forall (fun c => paint_color c = tri_color t) calls.
Proof.
  unfold renderTriangle.
  destruct (behindCamera _ _ _ _).
  - intros H. injection H as <-. constructor.
  - destruct (pointToScreen M (delta (tri_p1 t) _) _ _ _ _ _ _) as [p1|];
      cbn [bind]; [|discriminate].
    destruct (pointToScreen M (delta (tri_p2 t) _) _ _ _ _ _ _) as [p2|];
      cbn [bind]; [|discriminate].
    destruct (pointToScreen M (delta (tri_p3 t) _) _ _ _ _ _ _) as [p3|];
      cbn [bind]; [|discriminate].
    intros H.
    destruct (bounds3 (pt_x p1) (pt_x p2) (pt_x p3))
      as (lo & hi & B1 & B2 & B3 & _).
    eapply Forall_impl;
      [exact (paintTriangle_within w (tri_color t) p1 p2 p3 lo hi calls
                B1 B2 B3 H)|].
    intros c [_ Hc]. exact Hc.
Qed.

Lemma renderTriangles_colour (step : triangle_t -> result (list paint_t)) :
  (forall t calls, step t = Ok calls ->
     Forall (fun c => paint_color c = tri_color t) calls) ->
  forall ts calls,
    renderTriangles step ts = Ok calls ->
    Forall (fun c => exists t, In t ts /\ paint_color c = tri_color t) calls.
Proof.
  intros Hstep. induction ts as [|t ts IH]; intros calls; simpl.
  - intros H. injection H as <-. constructor.
  - destruct (step t) as [a|] eqn:Ea; cbn [bind]; [|discriminate].
    destruct (renderTriangles step ts) as [b|] eqn:Eb; cbn [bind];
      [|discriminate].
    intros H. injection H as <-.
    apply Forall_app. split.
    + eapply Forall_impl; [exact (Hstep t a Ea)|].
      intros c Hc. exists t. split; [left; reflexivity | exact Hc].
    + eapply Forall_impl; [exact (IH b eq_refl)|].
      intros c (t' & Hin & Hc). exists t'. split; [right; exact Hin | exact Hc].
Qed.

Lemma paintAll_Forall (P : Z -> Prop) (calls : list paint_t) :
  forall frame,
    Forall P (buffer frame) ->
    Forall (fun c => P (paint_color c)) calls ->
    Forall P (buffer (paintAll frame calls)).
Proof.
  induction calls as [|c calls IH]; intros frame Hbuf Hcalls; [exact Hbuf|].
  inversion Hcalls as [|c' l' Hc Hrest]; subst.
  unfold paintAll. simpl. apply IH; [|exact Hrest].
  destruct (paintPixelf_in_bounds frame (paint_x c) (paint_y c)
              (paint_color c)) as [->|(px & py & _ & _ & _ & ->)].
  - exact Hbuf.
  - cbn [buffer]. apply Forall_insert; assumption.
Qed.

(** A rendered frame shows no colour of its own: every cell holds the
    world's background colour or the colour of one of the world's
    triangles. *)
Theorem RenderFrame_colours (M : libm)
    (qsort : (triangle_t -> triangle_t -> Z) ->
             list triangle_t -> list triangle_t)
    (world : world_t) (camera : camera_t) (frame frame' : framebuffer_t) :
  qsort_contract qsort ->
  0 <= width frame <= 255 -> 0 <= height frame <= 255 ->
  length (buffer frame) = Z.to_nat (width frame * height frame) ->
  Render_Engine_RenderFrame M qsort world camera frame = Ok frame' ->
  Forall (worldColour world) (buffer frame').
Proof.
  intros Hq Hw Hh Hlen.
  rewrite RenderFrame_cleared by assumption.
  destruct (fdiv _ _) as [aH|]; cbn [bind]; [|discriminate].
  destruct (fdiv _ _) as [aV|]; cbn [bind]; [|discriminate].
  destruct (renderTriangles _ _) as [calls|] eqn:E; cbn [bind];
    [|discriminate].
  intros H. injection H as <-.
  apply paintAll_Forall.
  - unfold plainFrame. cbn [buffer].
    apply List.Forall_forall. intros c Hc.
    apply repeat_spec in Hc. left. exact Hc.
  - destruct (Hq (compareTriangles (location camera)) (triangles world)
                (compareTriangles_consistent (location camera)))
      as [Hperm _].
    eapply Forall_impl;
      [exact (renderTriangles_colour _
                (renderTriangle_colour M camera (width frame) aH aV _ _)
                _ calls E)|].
    intros c (t & Hin & Hc). right. exists t. split; [|exact Hc].
    apply (Permutation_in _ (Permutation_sym Hperm)). exact Hin.
Qed.

Lemma RenderFrame_colours_three :
  exists frame',
    Render_Engine_RenderFrame coarseLibm insertionSort
      (mkWorld 0 threeTriangles) levelCamera (blackFrame 8 4) = Ok frame'
    /\ Forall (worldColour (mkWorld 0 threeTriangles)) (buffer frame').
Proof.
  destruct (RenderFrame_total coarseLibm insertionSort
              (mkWorld 0 threeTriangles) levelCamera (blackFrame 8 4))
    as [frame' Hr];
    [simpl; lia | simpl; lia | exact fov_90_nonzero | exact fov_60_nonzero |].
  exists frame'. split; [exact Hr|].
  apply (RenderFrame_colours coarseLibm insertionSort
           (mkWorld 0 threeTriangles) levelCamera (blackFrame 8 4) frame').
  - apply insertionSort_contract.
  - simpl. lia.
  - simpl. lia.
  - reflexivity.
  - exact Hr.
Defined.

(** ** The projection *)

(** A point straight above, below or at the camera (no horizontal offset)
    is projected to the middle column whatever the yaw, without a call of
    [atan2] for the column; a point at the camera itself is projected to
    the middle of the screen whatever the pitch. *)
Theorem pointToScreen_no_offset (M : libm) (d : vector_t)
    (h v aH aV : Q) (hw hh : Z) :
  (vec_x d == 0)%Q -> (vec_y d == 0)%Q ->
  ~ (aH == 0)%Q -> ~ (aV == 0)%Q ->
  exists p,
    pointToScreen M d h v aH aV hw hh = Ok p
    /\ (pt_x p == inject_Z hw)%Q
    /\ ((vec_z d == 0)%Q -> (pt_y p == inject_Z hh)%Q).
Proof.
  intros Hx Hy HaH HaV. unfold pointToScreen.
  apply Qeq_bool_iff in Hx, Hy. rewrite Hx, Hy. cbn [andb].
  change (0 <=? - M_PI)%Q with false.
  change (0 >? M_PI)%Q with false. cbn iota.
  rewrite (fdiv_ok _ aH HaH). cbn [bind].
  rewrite (fdiv_ok _ aV HaV). cbn [bind].
  eexists. split; [reflexivity|]. cbn [pt_x pt_y]. split.
  - field. exact HaH.
  - intros Hz. apply Qeq_bool_iff in Hz. rewrite Hz. field. exact HaV.
Qed.

Lemma one_nonzero : ~ (1 == 0)%Q.
Proof. intros E. discriminate E. Qed.

Lemma pointToScreen_no_offset_origin :
  exists p,
    pointToScreen coarseLibm origin 0 0 1 1 4 2 = Ok p
    /\ (pt_x p == 4)%Q
    /\ ((0 == 0)%Q -> (pt_y p == 2)%Q).
Proof.
  apply (pointToScreen_no_offset coarseLibm origin 0 0 1 1 4 2).
  - reflexivity.
  - reflexivity.
  - exact one_nonzero.
  - exact one_nonzero.
Defined.

Lemma cameraHorizontalAngle_range (camera : camera_t) :
  (- M_PI <= cameraHorizontalAngle camera <= M_PI)%Q.
Proof.
  unfold cameraHorizontalAngle.
  destruct (normalizedYaw_facts camera) as (_ & _ & Hpos & Hneg).
  assert (Hn : (- (180) <= normalizedYaw camera <= 180)%Q).
  { destruct (Qlt_le_dec (vec_z (rotation camera)) 0) as [H|H].
    - specialize (Hneg H). lra.
    - specialize (Hpos H). lra. }
  set (n := normalizedYaw camera) in *.
  set (k := (M_PI / 180)%Q).
  assert (Hk : (0 < k)%Q) by reflexivity.
  assert (Hpi : (M_PI == 180 * k)%Q) by (unfold k; field).
  rewrite Hpi. nra.
Qed.

(** The horizontal angle a point is projected with is brought back into
    (-pi, pi] by the one addition or subtraction of 2 pi of lines 374-378,
    provided [atan2] answers within [-pi, pi] as libm's does: the offset of
    the projected x from the middle column, times the angle per pixel, lies
    in (-M_PI, M_PI]. *)
Theorem pointToScreen_angle_wrapped (M : libm) (camera : camera_t)
    (d : vector_t) (v aH aV : Q) (hw hh : Z) (p : point_t) :
  (- M_PI <= atan2 M (vec_y d) (vec_x d) <= M_PI)%Q ->
  pointToScreen M d (cameraHorizontalAngle camera) v aH aV hw hh = Ok p ->
  (- M_PI < (inject_Z hw - pt_x p) * aH <= M_PI)%Q.
Proof.
  intros Hat. pose proof (cameraHorizontalAngle_range camera) as Hcam.
  unfold pointToScreen.
  set (a0 := if (vec_x d ==? 0)%Q && (vec_y d ==? 0)%Q
             then 0%Q
             else (atan2 M (vec_y d) (vec_x d)
                   - cameraHorizontalAngle camera)%Q).
  assert (Ha0 : (- (2 * M_PI) <= a0 <= 2 * M_PI)%Q).
  { subst a0. unfold M_PI in *.
    destruct ((vec_x d ==? 0)%Q && (vec_y d ==? 0)%Q); lra. }
  set (a1 := if (a0 <=? - M_PI)%Q then (a0 + 2 * M_PI)%Q
             else if (a0 >? M_PI)%Q then (a0 - 2 * M_PI)%Q else a0).
  assert (Ha1 : (- M_PI < a1 <= M_PI)%Q).
  { subst a1. unfold M_PI in *.
    destruct (a0 <=? - (314159265358979323846 # 100000000000000000000))%Q
      eqn:E1;
      [|destruct (a0 >? 314159265358979323846 # 100000000000000000000)%Q
          eqn:E2];
      qprop; lra. }
  unfold fdiv. destruct (aH ==? 0)%Q eqn:EH; cbn [bind]; [discriminate|].
  destruct (aV ==? 0)%Q eqn:EV; cbn [bind]; [discriminate|].
  intros H. injection H as <-. cbn [pt_x]. qprop.
  assert (E : ((inject_Z hw - (inject_Z hw - a1 / aH)) * aH == a1)%Q)
    by (field; exact EH).
  rewrite E. exact Ha1.
Qed.

Lemma pointToScreen_angle_wrapped_diagonal :
  exists p,
    pointToScreen coarseLibm (mkVector 1 1 0)
      (cameraHorizontalAngle turnedCamera) 0 1 1 4 2 = Ok p
    /\ (- M_PI < (inject_Z 4 - pt_x p) * 1 <= M_PI)%Q.
Proof.
  destruct (pointToScreen_ok coarseLibm (mkVector 1 1 0)
              (cameraHorizontalAngle turnedCamera) 0 1 1 4 2
              one_nonzero one_nonzero) as [p Hp].
  exists p. split; [exact Hp|].
  apply (pointToScreen_angle_wrapped coarseLibm turnedCamera
           (mkVector 1 1 0) 0 1 1 4 2 p); [|exact Hp].
  vm_compute. split; discriminate.
Defined.

(** ** The comparison function *)


(** ** The pitch *)

Lemma cameraVerticalAngle_scaled (camera : camera_t) :
  (cameraVerticalAngle camera
   == vec_y (rotation camera) * (M_PI / 180))%Q.
Proof. unfold cameraVerticalAngle. field. Qed.

(** For every pitch from -5156 to 5156 degrees the z component of the
    heading is the sentinel: 10000 for a positive pitch, 0 for a pitch of
    0, -10000 for a negative pitch, and [tan] is not called.  From 5157
    degrees on, either way, it is [tan] of the pitch in radians: line 47
    compares the radian value with 90. *)
Theorem cameraDirection_z_by_pitch (M : libm) (camera : camera_t) :
  ((- (5156) <= vec_y (rotation camera) <= 5156)%Q ->
   vec_z (cameraDirection M camera)
   = inject_Z (signTest (cameraVerticalAngle camera) * 10000)
   /\ ((0 < vec_y (rotation camera))%Q ->
       (vec_z (cameraDirection M camera) == 10000)%Q)
   /\ ((vec_y (rotation camera) == 0)%Q ->
       (vec_z (cameraDirection M camera) == 0)%Q)
   /\ ((vec_y (rotation camera) < 0)%Q ->
       (vec_z (cameraDirection M camera) == - (10000))%Q))
  /\ ((vec_y (rotation camera) <= - (5157))%Q
      \/ (5157 <= vec_y (rotation camera))%Q ->
      vec_z (cameraDirection M camera)
      = tan M (cameraVerticalAngle camera)).
Proof.
  pose proof (cameraVerticalAngle_scaled camera) as Hv.
  set (k := (M_PI / 180)%Q) in Hv.
  assert (Hk1 : (5156 * k < 90)%Q) by reflexivity.
  assert (Hk2 : (90 < 5157 * k)%Q) by reflexivity.
  assert (Hk0 : (0 < k)%Q) by reflexivity.
  destruct (cameraDirection_z_cases M camera) as [Hout Hin].
  split.
  - intros Hp.
    assert (Hr : (- (90) < cameraVerticalAngle camera < 90)%Q).
    { rewrite Hv. split; nra. }
    rewrite (Hin Hr). split; [reflexivity|].
    destruct (signTest_cases (cameraVerticalAngle camera))
      as [[Hs ->]|[[Hs ->]|[Hs ->]]]; rewrite Hv in Hs;
      (split; [|split]); intros H; try reflexivity; exfalso; nra.
  - intros Hp. apply Hout. rewrite Hv. destruct Hp; [left | right]; nra.
Qed.

(** ** The yaw *)

Lemma signedWrap_compat (x y : Q) :
  (x == y)%Q -> (signedWrap x == signedWrap y)%Q.
Proof.
  intros E. unfold signedWrap, Qmod.
  assert (Hf : Qfloor ((Qabs x + 180) / 360)
               = Qfloor ((Qabs y + 180) / 360)).
  { apply Qfloor_comp. rewrite E. reflexivity. }
  assert (Ha : (Qabs x == Qabs y)%Q) by (rewrite E; reflexivity).
  rewrite Hf.
  destruct (Qlt_le_dec x 0); destruct (Qlt_le_dec y 0); try lra.
Qed.

(** The normalization is odd: a camera turned by the opposite yaw gets the
    opposite normalized yaw (the point of the two sign flips of lines
    36-42), and a yaw of a whole number of turns is normalized to 0. *)
Theorem normalizedYaw_odd (c1 c2 : camera_t) :
  ((vec_z (rotation c2) == - vec_z (rotation c1))%Q ->
   ~ (vec_z (rotation c1) == 0)%Q ->
   (normalizedYaw c2 == - normalizedYaw c1)%Q)
  /\ (forall k : Z,
        (vec_z (rotation c1) == 360 * inject_Z k)%Q ->
        (normalizedYaw c1 == 0)%Q).
Proof.
  split.
  - intros Hopp Hnz.
    destruct (normalizedYaw_facts c1) as (H1 & _).
    destruct (normalizedYaw_facts c2) as (H2 & _).
    rewrite H1, H2. rewrite (signedWrap_compat _ _ Hopp).
    set (y := vec_z (rotation c1)) in *.
    unfold signedWrap, Qmod.
    assert (Hf : Qfloor ((Qabs (- y) + 180) / 360)
                 = Qfloor ((Qabs y + 180) / 360)).
    { apply Qfloor_comp. rewrite Qabs_opp. reflexivity. }
    rewrite Hf. pose proof (Qabs_opp y) as Ha.
    destruct (Qlt_le_dec (- y) 0); destruct (Qlt_le_dec y 0); lra.
  - intros k Hk.
    destruct (normalizedYaw_facts c1) as (_ & [m Hm] & Hpos & Hneg).
    assert (Hn : (- (180) <= normalizedYaw c1 <= 180)%Q).
    { destruct (Qlt_le_dec (vec_z (rotation c1)) 0) as [H|H].
      - specialize (Hneg H). lra.
      - specialize (Hpos H). lra. }
    assert (Hd : (normalizedYaw c1 == 360 * inject_Z (k - m))%Q).
    { rewrite Hm, Hk. unfold Z.sub.
      rewrite inject_Z_plus, inject_Z_opp. ring. }
    rewrite Hd in Hn |- *.
    assert (Hkm : k - m = 0).
    { destruct Hn as [Hlo Hhi].
      assert (H1 : (inject_Z (-1) < inject_Z (k - m))%Q)
        by (change (inject_Z (-1)) with (- (1))%Q; lra).
      assert (H2 : (inject_Z (k - m) < inject_Z 1)%Q)
        by (change (inject_Z 1) with 1%Q; lra).
      rewrite <- Zlt_Qlt in H1, H2. lia. }
    rewrite Hkm. reflexivity.
Qed.

(** ** Ties in the classification *)

(** Which point is taken for left and for right: left is the point of
    least x, the earlier one of equal points; right is, among the other
    two, the point of greatest x, the later one of equal points.  Three
    points of one x are left = p1, centre = p2, right = p3. *)
Theorem selection_tie_break (p1 p2 p3 : point_t) :
  ((selectLeft p1 p2 p3 = (p1, 1)
    /\ (pt_x p1 <= pt_x p2)%Q /\ (pt_x p1 <= pt_x p3)%Q
    /\ ((selectRight 1 p1 p2 p3 = (p3, 3) /\ (pt_x p2 <= pt_x p3)%Q)
        \/ (selectRight 1 p1 p2 p3 = (p2, 2) /\ (pt_x p3 < pt_x p2)%Q)))
   \/ (selectLeft p1 p2 p3 = (p2, 2)
       /\ (pt_x p2 < pt_x p1)%Q /\ (pt_x p2 <= pt_x p3)%Q
       /\ ((selectRight 2 p1 p2 p3 = (p3, 3) /\ (pt_x p1 <= pt_x p3)%Q)
           \/ (selectRight 2 p1 p2 p3 = (p1, 1) /\ (pt_x p3 < pt_x p1)%Q)))
   \/ (selectLeft p1 p2 p3 = (p3, 3)
       /\ (pt_x p3 < pt_x p1)%Q /\ (pt_x p3 < pt_x p2)%Q
       /\ ((selectRight 3 p1 p2 p3 = (p2, 2) /\ (pt_x p1 <= pt_x p2)%Q)
           \/ (selectRight 3 p1 p2 p3 = (p1, 1)
               /\ (pt_x p2 < pt_x p1)%Q))))
  /\ ((pt_x p1 == pt_x p2)%Q -> (pt_x p2 == pt_x p3)%Q ->
      selectLeft p1 p2 p3 = (p1, 1)
      /\ selectRight 1 p1 p2 p3 = (p3, 3)
      /\ selectCenter 1 3 p1 p2 p3 = Ok p2).
Proof.
  split.
  - unfold selectLeft, selectRight. cbn [fst snd].
    destruct (pt_x p1 >? pt_x p2)%Q eqn:E12; cbn [fst snd];
      [ destruct (pt_x p2 >? pt_x p3)%Q eqn:E23
      | destruct (pt_x p1 >? pt_x p3)%Q eqn:E13 ];
      cbn [fst snd Z.eqb Pos.eqb negb orb andb];
      rewrite ?orb_true_r, ?orb_false_r, ?andb_true_r, ?andb_false_r;
      cbn [fst snd];
      repeat match goal with
      | |- context [Qltb ?a ?b] =>
        destruct (Qltb a b) eqn:?;
        cbn [fst snd Z.eqb Pos.eqb negb orb andb]
      end;
      qprop; try (exfalso; lra);
      first
        [ left; split; [reflexivity|]; split; [lra|]; split; [lra|];
          first [ left; split; [reflexivity | lra]
                | right; split; [reflexivity | lra] ]
        | right; left; split; [reflexivity|]; split; [lra|]; split; [lra|];
          first [ left; split; [reflexivity | lra]
                | right; split; [reflexivity | lra] ]
        | right; right; split; [reflexivity|]; split; [lra|]; split; [lra|];
          first [ left; split; [reflexivity | lra]
                | right; split; [reflexivity | lra] ] ].
  - intros H12 H23.
    assert (Hl : selectLeft p1 p2 p3 = (p1, 1)).
    { unfold selectLeft. cbn [fst].
      replace (pt_x p1 >? pt_x p2)%Q with false
        by (symmetry; apply Qltb_ge; lra).
      cbn [fst].
      replace (pt_x p1 >? pt_x p3)%Q with false
        by (symmetry; apply Qltb_ge; lra).
      reflexivity. }
    assert (Hr : selectRight 1 p1 p2 p3 = (p3, 3)).
    { unfold selectRight. cbn [fst].
      replace (pt_x p3 <? pt_x p2)%Q with false
        by (symmetry; apply Qltb_ge; lra).
      cbn [fst Z.eqb Pos.eqb orb andb negb].
      rewrite andb_false_r. reflexivity. }
    split; [exact Hl|]. split; [exact Hr | reflexivity].
Qed.

(** ** A column has no gap *)

Lemma Qfloor_pred (y : Q) : Qfloor (y - 1) = Qfloor y - 1.
Proof.
  pose proof (Qfloor_le y) as H1. pose proof (Qlt_floor y) as H2.
  pose proof (Qfloor_le (y - 1)) as H3.
  pose proof (Qlt_floor (y - 1)) as H4.
  rewrite inject_Z_plus in H2, H4.
  change (inject_Z 1) with 1%Q in H2, H4.
  assert (Ha : (inject_Z (Qfloor (y - 1)) < inject_Z (Qfloor y))%Q) by lra.
  assert (Hb : (inject_Z (Qfloor y - 2) < inject_Z (Qfloor (y - 1)))%Q).
  { unfold Z.sub. rewrite inject_Z_plus.
    change (inject_Z (- (2))) with (- (2))%Q. lra. }
  rewrite <- Zlt_Qlt in Ha, Hb. lia.
Qed.

Lemma above_floor (b : Q) (r : Z) (y : Q) :
  Qfloor b < r -> r <= Qfloor y -> (b < y)%Q.
Proof.
  intros Hb Hy.
  pose proof (Qlt_floor b) as H1. pose proof (Qfloor_le y) as H2.
  assert (H3 : (inject_Z (Qfloor b + 1) <= inject_Z r)%Q)
    by (rewrite <- Zle_Qle; lia).
  assert (H4 : (inject_Z r <= inject_Z (Qfloor y))%Q)
    by (rewrite <- Zle_Qle; lia).
  lra.
Qed.

Lemma paintDown_rows (x bottomY : Q) (color : Z) (fuel : nat) :
  forall (y : Q) (calls : list paint_t) (r : Z),
    forLoop fuel (fun y => y >? bottomY)%Q
      (fun y => Ok ([mkPaint x y color], y - 1)%Q) y = Ok calls ->
    Qfloor bottomY < r <= Qfloor y ->
    exists c, In c calls /\ paint_x c = x /\ Qfloor (paint_y c) = r.
Proof.
  induction fuel as [|fuel IH]; intros y calls r; simpl;
    intros Hcalls [Hlo Hhi].
  - pose proof (above_floor bottomY r y Hlo Hhi) as Hc.
    apply Qltb_lt in Hc. rewrite Hc in Hcalls. discriminate.
  - pose proof (above_floor bottomY r y Hlo Hhi) as Hc.
    apply Qltb_lt in Hc. rewrite Hc in Hcalls.
    cbn [bind fst snd] in Hcalls.
    destruct (forLoop fuel _ _ (y - 1)%Q) as [rest|] eqn:E;
      cbn [bind] in Hcalls; [|discriminate].
    injection Hcalls as <-.
    destruct (Z.eq_dec r (Qfloor y)) as [->|Hne].
    + exists (mkPaint x y color). split; [left; reflexivity|]. auto.
    + destruct (IH (y - 1)%Q rest r E) as (c & Hin & Hx & Hr).
      { rewrite Qfloor_pred. lia. }
      exists c. split; [right; exact Hin | auto].
Qed.

(** The column loop with its last paint (the columns of the vertical-edge
    and of the general shape) leaves no gap: every row from the row of
    [bottomY] to the row of [topY] gets a paint call in the column. *)
Theorem paintColumn_no_gap (x topY bottomY : Q) (color : Z)
    (calls : list paint_t) (r : Z) :
  paintColumn x topY bottomY color = Ok calls ->
  Qfloor bottomY <= r <= Qfloor topY ->
  exists c, In c calls /\ paint_x c = x /\ Qfloor (paint_y c) = r.
Proof.
  unfold paintColumn, paintDown.
  destruct (forLoop _ _ _ topY) as [col|] eqn:E; cbn [bind]; [|discriminate].
  intros H Hr. injection H as <-.
  destruct (Z.eq_dec r (Qfloor bottomY)) as [->|Hne].
  - exists (mkPaint x bottomY color). split; [|auto].
    apply in_or_app. right. left. reflexivity.
  - destruct (paintDown_rows x bottomY color _ topY col r E)
      as (c & Hin & Hx & Hrow); [lia|].
    exists c. split; [apply in_or_app; left; exact Hin | auto].
Qed.

Lemma paintColumn_no_gap_3 :
  exists calls,
    paintColumn 3 (11 # 2) (5 # 2) 7 = Ok calls
    /\ exists c, In c calls /\ paint_x c = 3%Q /\ Qfloor (paint_y c) = 2.
Proof.
  destruct (paintColumn_ok 3 (11 # 2) (5 # 2) 7) as [calls Hcalls].
  exists calls. split; [exact Hcalls|].
  apply (paintColumn_no_gap 3 (11 # 2) (5 # 2) 7 calls 2 Hcalls).
  vm_compute. split; discriminate.
Defined.

(** ** Later paint calls win *)

(** The last paint call decides its pixel: after any list of calls, a call
    inside the frame leaves its colour in the pixel of its column and row,
    whatever was painted there before. *)
Theorem paintAll_last_wins (frame : framebuffer_t) (calls : list paint_t)
    (x y : Q) (color : Z) :
  0 <= width frame <= 255 -> 0 <= height frame <= 255 ->
  length (buffer frame) = Z.to_nat (width frame * height frame) ->
  (0 <= x)%Q -> (0 <= y)%Q ->
  Qfloor x < width frame -> Qfloor y < height frame ->
  pixel (paintAll frame (calls ++ [mkPaint x y color])) (Qfloor x) (Qfloor y)
  = Some color.
Proof.
  intros Hw Hh Hlen Hx Hy Hxw Hyh.
  unfold paintAll. rewrite fold_left_app. cbn [fold_left paint_x paint_y
    paint_color].
  fold (paintAll frame calls).
  destruct (paintAll_shape calls frame) as (Hw' & Hh' & Hl').
  set (f := paintAll frame calls) in *.
  assert (Hfx : 0 <= Qfloor x).
  { replace 0 with (Qfloor 0) by reflexivity.
    apply Qfloor_resp_le. exact Hx. }
  assert (Hfy : 0 <= Qfloor y).
  { replace 0 with (Qfloor 0) by reflexivity.
    apply Qfloor_resp_le. exact Hy. }
  unfold paintPixelf.
  replace (x >=? 0)%Q with true by (symmetry; apply Qle_bool_iff; exact Hx).
  replace (y >=? 0)%Q with true by (symmetry; apply Qle_bool_iff; exact Hy).
  cbn [andb]. unfold to_uint16, u16.
  rewrite !Qtrunc_floor by assumption.
  rewrite !Z.mod_small by lia.
  unfold paintPixel, pixel. rewrite Hw', Hh'.
  replace (Qfloor x <? width frame) with true
    by (symmetry; apply Z.ltb_lt; lia).
  replace (Qfloor y <? height frame) with true
    by (symmetry; apply Z.ltb_lt; lia).
  cbn [andb width buffer].
  apply list_lookup_insert_eq. rewrite Hl', Hlen. nia.
Qed.

Lemma paintAll_last_wins_4_4 :
  pixel (paintAll (blackFrame 4 4)
           ([mkPaint 1 2 3; mkPaint (3 # 2) (5 # 2) 4]
            ++ [mkPaint (5 # 4) (9 # 4) 7]))
    (Qfloor (5 # 4)) (Qfloor (9 # 4))
  = Some 7.
Proof.
  apply (paintAll_last_wins (blackFrame 4 4)
           [mkPaint 1 2 3; mkPaint (3 # 2) (5 # 2) 4] (5 # 4) (9 # 4) 7).
  - simpl. lia.
  - simpl. lia.
  - reflexivity.
  - discriminate.
  - discriminate.
  - reflexivity.
  - reflexivity.
Defined.

(** ** A point on the camera's axis *)

(** A point whose azimuth, by [atan2], is the camera's horizontal angle is
    projected to the middle column, and one whose elevation is the camera's
    vertical angle to the middle row. *)
Theorem pointToScreen_on_axis (M : libm) (d : vector_t) (h v aH aV : Q)
    (hw hh : Z) (p : point_t) :
  pointToScreen M d h v aH aV hw hh = Ok p ->
  ((atan2 M (vec_y d) (vec_x d) == h)%Q -> (pt_x p == inject_Z hw)%Q)
  /\ ((atan2 M (vec_z d)
         (sqrt M (vec_x d * vec_x d + vec_y d * vec_y d)) == v)%Q ->
      (pt_y p == inject_Z hh)%Q).
Proof.
  unfold pointToScreen, fdiv.
  destruct (aH ==? 0)%Q eqn:EH; cbn [bind]; [discriminate|].
  destruct (aV ==? 0)%Q eqn:EV; cbn [bind]; [discriminate|].
  intros H. injection H as <-. cbn [pt_x pt_y]. qprop.
  assert (Hpi : (0 < M_PI)%Q) by reflexivity.
  split.
  - intros Haz.
    set (a0 := if (vec_x d ==? 0)%Q && (vec_y d ==? 0)%Q
               then 0%Q else (atan2 M (vec_y d) (vec_x d) - h)%Q).
    assert (Ha0 : (a0 == 0)%Q).
    { subst a0. destruct ((vec_x d ==? 0)%Q && (vec_y d ==? 0)%Q); lra. }
    destruct (a0 <=? - M_PI)%Q eqn:E1; qprop; [lra|].
    destruct (a0 >? M_PI)%Q eqn:E2; qprop; [lra|].
    rewrite Ha0. field. exact EH.
  - intros Hel.
    set (b0 := if (vec_x d ==? 0)%Q && (vec_y d ==? 0)%Q
                  && (vec_z d ==? 0)%Q
               then 0%Q
               else (atan2 M (vec_z d)
                       (sqrt M (vec_x d * vec_x d + vec_y d * vec_y d))
                     - v)%Q).
    assert (Hb0 : (b0 == 0)%Q).
    { subst b0.
      destruct ((vec_x d ==? 0)%Q && (vec_y d ==? 0)%Q
                && (vec_z d ==? 0)%Q); lra. }
    rewrite Hb0. field. exact EV.
Qed.

Lemma pointToScreen_on_axis_ahead :
  exists p,
    pointToScreen coarseLibm (mkVector 1 0 0) 0 0 1 1 4 2 = Ok p
    /\ (pt_x p == 4)%Q /\ (pt_y p == 2)%Q.
Proof.
  destruct (pointToScreen_ok coarseLibm (mkVector 1 0 0) 0 0 1 1 4 2
              one_nonzero one_nonzero) as [p Hp].
  exists p. split; [exact Hp|].
  destruct (pointToScreen_on_axis coarseLibm (mkVector 1 0 0) 0 0 1 1 4 2 p
              Hp) as [Hx Hy].
  split; [apply Hx | apply Hy]; reflexivity.
Defined.
